(** * DynamicSpatialHash: a verified model of [dynamic-spatial-hash.js]

    The class keeps a [Map] from 32-bit bucket keys to [Set]s of object
    references, and writes on every tracked object the [Set] of keys it was
    filed under ([__spatialHashes]).  The model below follows the source
    method by method:

    - JavaScript numbers are IEEE-754 binary64 values ([spec_float] of the
      standard library at precision 53), so that [1 / value], the products
      and [Math.floor] round exactly as the engine does;
    - the [Map] is a [gmap], the [Set]s are [gset]s, object references are
      positive numbers and the caller-owned objects live in a heap;
    - a method returns, throws, or leaves the model ([Beyond]) when a loop
      counter is not a safe integer. *)

From Stdlib Require Import ZArith Bool List Lia.
From Stdlib Require Import Floats.SpecFloat.
From stdpp Require Import base option list gmap fin_sets fin_maps.

Local Open Scope Z_scope.
#[local] Set Warnings "-clear-no-such-hyp".

Abbreviation number := spec_float.

(** ** JavaScript numbers *)

Module Num.

Definition prec : Z := 53.
Definition emax : Z := 1024.

Definition mul : number -> number -> number := SFmul prec emax.
Definition sub : number -> number -> number := SFsub prec emax.
Definition add : number -> number -> number := SFadd prec emax.
Definition div : number -> number -> number := SFdiv prec emax.
Definition leb : number -> number -> bool := SFleb.
Definition ltb : number -> number -> bool := SFltb.

(** The number denoted by the literal [m * 2^e]; [of_Z z] is the integer
    literal [z]. *)
Definition dyadic (m e : Z) : number := binary_normalize prec emax m e false.
Definition of_Z (z : Z) : number := dyadic z 0.

Definition NaN : number := S754_nan.
Definition Infinity : number := S754_infinity false.

(** [Math.floor]: the largest integer not above the argument; zeros,
    infinities and NaN are returned unchanged. *)
Definition floor (f : number) : number :=
  match f with
  | S754_finite s m e =>
      if 0 <=? e then f
      else
        let d := 2 ^ (- e) in
        let q := Z.pos m / d in
        if s then
          of_Z (- (if Z.pos m mod d =? 0 then q else q + 1))
        else of_Z q
  | _ => f
  end.

(** The integer part of a finite number, rounding toward zero. *)
Definition truncate (f : number) : Z :=
  match f with
  | S754_finite s m e =>
      let a := if 0 <=? e then Z.pos m * 2 ^ e else Z.pos m / 2 ^ (- e) in
      if s then - a else a
  | _ => 0
  end.

(** [ToInt32] of ECMAScript: NaN, zeros and infinities give 0; any other
    number is truncated and wrapped into [-2^31, 2^31). *)
Definition ToInt32 (f : number) : Z :=
  let k := truncate f mod 2 ^ 32 in
  if 2 ^ 31 <=? k then k - 2 ^ 32 else k.

(** [ToUint32] on the result of a 32-bit bitwise operation. *)
Definition ToUint32_of_int (z : Z) : Z := z mod 2 ^ 32.

Definition MAX_SAFE_INTEGER : Z := 2 ^ 53 - 1.

(** The integer a number holds when it is a safe integer
    ([Number.isSafeInteger]): on these, [++] is exact. *)
Definition to_safe_integer (f : number) : option Z :=
  match f with
  | S754_zero _ => Some 0
  | S754_finite s m e =>
      let z := truncate f in
      if Z.abs z <=? MAX_SAFE_INTEGER then
        if 0 <=? e then Some z
        else if Z.pos m mod 2 ^ (- e) =? 0 then Some z else None
      else None
  | _ => None
  end.

End Num.

(** ** Objects, the index and the outcome of a call *)

(** A bucket key: the unsigned 32-bit result of [hash]. *)
Abbreviation key := Z.

(** A reference to a caller-owned object; [===] on objects is equality of
    references. *)
Abbreviation objref := positive.

(** The caller's object: the four numeric properties the index reads and the
    property it attaches ([None] when the property is absent). *)
Record JSObject := mkObject {
  x : number;
  y : number;
  width : number;
  height : number;
  __spatialHashes : option (gset key)
}.

(** The instance: the private fields [#cellSize] and [#table] and the public
    property [overflow]. *)
Record DynamicSpatialHash := mkIndex {
  priv_cellSize : number;
  priv_table : gmap key (gset objref);
  overflow : number
}.

Record world := mkWorld {
  this : DynamicSpatialHash;
  heap : gmap objref JSObject
}.

Inductive error := TypeError | RangeError.

(** What a method returns where the source returns [this] or nothing. *)
Inductive ret := This | Undefined.

(** A call returns a value, throws, or leaves the model; the first two carry
    the state the call left behind. *)
Inductive outcome (A : Type) :=
| Return (a : A) (w : world)
| Throw (e : error) (w : world)
| Beyond.
Arguments Return {A} a w.
Arguments Throw {A} e w.
Arguments Beyond {A}.

Definition returned {A} (r : outcome A) : option A :=
  match r with
  | Return a _ => Some a
  | _ => None
  end.

Definition world_after {A} (r : outcome A) : option world :=
  match r with
  | Return _ w => Some w
  | Throw _ w => Some w
  | Beyond => None
  end.

(** The values a caller may assign to [cellSize]. *)
Inductive value :=
| VUndefined
| VNull
| VBoolean (b : bool)
| VNumber (n : number)
| VString (s : list Byte.byte)
| VObject (r : objref).

Definition typeof_number (v : value) : bool :=
  match v with VNumber _ => true | _ => false end.

Module DSH.

Definition with_cellSize (c : number) (t : DynamicSpatialHash) :=
  mkIndex c (priv_table t) (overflow t).
Definition with_table (m : gmap key (gset objref)) (t : DynamicSpatialHash) :=
  mkIndex (priv_cellSize t) m (overflow t).
Definition with_overflow (o : number) (t : DynamicSpatialHash) :=
  mkIndex (priv_cellSize t) (priv_table t) o.
Definition with_hashes (h : option (gset key)) (o : JSObject) :=
  mkObject (x o) (y o) (width o) (height o) h.

(** [set cellSize(value)]: [typeof value] is ['number'] for [VNumber] and for
    no other value. *)
Definition set_cellSize (v : value) (w : world) : outcome unit :=
  match v with
  | VNumber n =>
      if Num.leb n (Num.of_Z 0) then Throw RangeError w
      else Return tt (mkWorld (with_cellSize (Num.div (Num.of_Z 1) n) (this w)) (heap w))
  | _ => Throw TypeError w
  end.

(** [get cellSize()] *)
Definition get_cellSize (w : world) : number := priv_cellSize (this w).

(** The assignment [index.overflow = n] of a caller. *)
Definition set_overflow (n : number) (w : world) : world :=
  mkWorld (with_overflow n (this w)) (heap w).

(** The field initialisers [#cellSize = 1 / 32] and [#table = new Map()]. *)
Definition fields : DynamicSpatialHash :=
  mkIndex (Num.div (Num.of_Z 1) (Num.of_Z 32)) ∅ (Num.of_Z 0).

(** [constructor(cellSize = 32)] in a given heap: the default applies when
    the argument is [undefined]. *)
Definition constructor (cellSize : value) (h : gmap objref JSObject) : outcome unit :=
  let cellSize := match cellSize with VUndefined => VNumber (Num.of_Z 32) | v => v end in
  match set_cellSize cellSize (mkWorld fields h) with
  | Return _ w => Return tt (set_overflow (Num.of_Z 0) w)
  | r => r
  end.

(** [hash(x, y)]: [((x * 16777619) ^ (y * 16777619)) >>> 0]. *)
Definition hash (x y : number) : key :=
  Num.ToUint32_of_int
    (Z.lxor (Num.ToInt32 (Num.mul x (Num.of_Z 16777619)))
            (Num.ToInt32 (Num.mul y (Num.of_Z 16777619)))).

(** The loop [for (let c = lo; c <= hi; c++)] taken step by step: the values
    of [c] in the body, when the loop ends within [fuel] tests. *)
Fixpoint counter_steps (fuel : nat) (c hi : number) : option (list number) :=
  match fuel with
  | O => None
  | S fuel =>
      if Num.leb c hi then
        cs ← counter_steps fuel (Num.add c (Num.of_Z 1)) hi; Some (c :: cs)
      else Some []
  end.

(** The values of [c] in [for (let c = lo; c <= hi; c++)]: none when the
    test fails at once (also when a bound is NaN), [lo .. hi] when both are
    safe integers ([counter_values_is_the_loop] below shows that these are the
    values the steps take); otherwise the loop is outside the model. *)
Definition counter_values (lo hi : number) : option (list Z) :=
  if negb (Num.leb lo hi) then Some []
  else
    match Num.to_safe_integer lo, Num.to_safe_integer hi with
    | Some a, Some b => Some (seqZ a (b - a + 1))
    | _, _ => None
    end.

Definition half : number := Num.dyadic 1 (-1).

Definition minX (t : DynamicSpatialHash) (o : JSObject) : number :=
  Num.sub (Num.floor (Num.mul (Num.sub (x o) (Num.mul (width o) half)) (priv_cellSize t))) (overflow t).
Definition minY (t : DynamicSpatialHash) (o : JSObject) : number :=
  Num.sub (Num.floor (Num.mul (Num.sub (y o) (Num.mul (height o) half)) (priv_cellSize t))) (overflow t).
Definition maxX (t : DynamicSpatialHash) (o : JSObject) : number :=
  Num.add (Num.floor (Num.mul (Num.add (x o) (Num.mul (width o) half)) (priv_cellSize t))) (overflow t).
Definition maxY (t : DynamicSpatialHash) (o : JSObject) : number :=
  Num.add (Num.floor (Num.mul (Num.add (y o) (Num.mul (height o) half)) (priv_cellSize t))) (overflow t).

(** The pairs [(x, y)] the two nested loops of [getHashFromObject] visit, in
    order.  The inner bounds are only looked at when the outer loop runs. *)
Definition covering_cells (t : DynamicSpatialHash) (o : JSObject) : option (list (Z * Z)) :=
  match counter_values (minX t o) (maxX t o) with
  | None => None
  | Some [] => Some []
  | Some xs =>
      match counter_values (minY t o) (maxY t o) with
      | None => None
      | Some ys => Some (cx ← xs; cy ← ys; [(cx, cy)])
      end
  end.

Definition hash_cell (c : Z * Z) : key := hash (Num.of_Z c.1) (Num.of_Z c.2).

(** [getHashFromObject(object)]: the [Set] of the keys of the visited cells. *)
Definition getHashFromObject (t : DynamicSpatialHash) (o : JSObject) : option (gset key) :=
  cells ← covering_cells t o; Some (list_to_set (hash_cell <$> cells)).

(** [clear(hash)] and [clearAll()] on the table. *)
Definition clear_bucket (h : key) (m : gmap key (gset objref)) : gmap key (gset objref) :=
  base.delete h m.

Definition clear (h : key) (w : world) : outcome unit :=
  Return tt (mkWorld (with_table (clear_bucket h (priv_table (this w))) (this w)) (heap w)).

Definition clearAll (w : world) : outcome unit :=
  Return tt (mkWorld (with_table ∅ (this w)) (heap w)).

(** [get(hash)]: the bucket, or [undefined]. *)
Definition get (h : key) (w : world) : option (gset objref) :=
  priv_table (this w) !! h.

(** The callback of [add]: create the bucket when the key is new, then put
    the object in it. *)
Definition add_each (object : objref) (h : key) (m : gmap key (gset objref)) :
    gmap key (gset objref) :=
  let m := match m !! h with None => <[h := ∅]> m | Some _ => m end in
  alter (λ bucket, bucket ∪ {[object]}) h m.

(** The callback of [delete]: skip an absent key; otherwise take the object
    out and drop the bucket when that empties it. *)
Definition delete_each (object : objref) (h : key) (m : gmap key (gset objref)) :
    gmap key (gset objref) :=
  match m !! h with
  | None => m
  | Some _ =>
      let m := alter (λ bucket, bucket ∖ {[object]}) h m in
      match m !! h with
      | Some bucket => if decide (size bucket = 0%nat) then clear_bucket h m else m
      | None => m
      end
  end.

(** [add(object)] *)
Definition add (object : objref) (w : world) : outcome ret :=
  match heap w !! object with
  | None => Throw TypeError w
  | Some o =>
      match getHashFromObject (this w) o with
      | None => Beyond
      | Some hashes =>
          let heap' := <[object := with_hashes (Some hashes) o]> (heap w) in
          let table' := set_fold (add_each object) (priv_table (this w)) hashes in
          Return This (mkWorld (with_table table' (this w)) heap')
      end
  end.

(** [delete(object)]: the early exit returns nothing, the full path returns
    [this]. *)
Definition delete (object : objref) (w : world) : outcome ret :=
  match heap w !! object with
  | None => Throw TypeError w
  | Some o =>
      match __spatialHashes o with
      | None => Return Undefined w
      | Some hashes =>
          let table' := set_fold (delete_each object) (priv_table (this w)) hashes in
          let heap' := <[object := with_hashes None o]> (heap w) in
          Return This (mkWorld (with_table table' (this w)) heap')
      end
  end.

(** The callback of [query] on one bucket. *)
Definition query_bucket (object : objref) (bucket objects : gset objref) : gset objref :=
  set_fold (λ otherobject objects,
              if decide (object = otherobject) then objects
              else objects ∪ {[otherobject]}) objects bucket.

(** [query(object)] *)
Definition query (object : objref) (w : world) : outcome (gset objref) :=
  match heap w !! object with
  | None => Throw TypeError w
  | Some o =>
      match __spatialHashes o with
      | None => Throw TypeError w
      | Some hashes =>
          Return (set_fold (λ h objects,
                              match priv_table (this w) !! h with
                              | None => objects
                              | Some bucket => query_bucket object bucket objects
                              end) ∅ hashes) w
      end
  end.

(** [update(object)]: [this.delete(object).add(object)]; the method call on
    the result of [delete] throws when that result is [undefined]. *)
Definition update (object : objref) (w : world) : outcome ret :=
  match delete object w with
  | Return This w' =>
      match add object w' with
      | Return _ w'' => Return Undefined w''
      | r => r
      end
  | Return Undefined w' => Throw TypeError w'
  | r => r
  end.

End DSH.

(** ** Callers *)

(** What a caller does between and with the calls: create an object or
    assign its bounding box (the index's own property stays), configure the
    index, and call the three mutating methods. *)
Inductive event :=
| Place (o : objref) (x y width height : number)
| SetCellSize (v : value)
| SetOverflow (n : number)
| Add (o : objref)
| Delete (o : objref)
| Update (o : objref).

Definition place (o : objref) (bx by_ bw bh : number) (w : world) : world :=
  mkWorld (this w)
          (<[o := mkObject bx by_ bw bh (heap w !! o ≫= __spatialHashes)]> (heap w)).

Definition step (ev : event) (w : world) : option world :=
  match ev with
  | Place o bx by_ bw bh => Some (place o bx by_ bw bh w)
  | SetCellSize v => world_after (DSH.set_cellSize v w)
  | SetOverflow n => Some (DSH.set_overflow n w)
  | Add o => world_after (DSH.add o w)
  | Delete o => world_after (DSH.delete o w)
  | Update o => world_after (DSH.update o w)
  end.

(** A caller that catches what is thrown and goes on, and that only makes
    the calls [permitted] in the state it is in. *)
Fixpoint run_if (permitted : event -> world -> bool) (evs : list event) (w : world) :
    option world :=
  match evs with
  | [] => Some w
  | ev :: evs =>
      if permitted ev w then w' ← step ev w; run_if permitted evs w' else None
  end.

(** Any sequence of calls. *)
Definition run : list event -> world -> option world := run_if (λ _ _, true).

(** The freshly constructed index with the default cell size, and no object
    yet. *)
Definition empty_world : world := mkWorld (DSH.with_overflow (Num.of_Z 0) DSH.fields) ∅.

(** What [delete_each] leaves of a bucket. *)
Definition without (o : objref) (b : option (gset objref)) : option (gset objref) :=
  match b with
  | None => None
  | Some bucket => if decide (bucket ∖ {[o]} = ∅) then None else Some (bucket ∖ {[o]})
  end.

(** ** The membership sets and the invariants I1, I2 and I3 *)

Definition table (w : world) : gmap key (gset objref) := priv_table (this w).

(** The membership set of a tracked object. *)
Definition membership (w : world) (o : objref) : option (gset key) :=
  heap w !! o ≫= __spatialHashes.

(** The covering set of keys of an object's current bounding box. *)
Definition covering (w : world) (o : objref) : option (gset key) :=
  heap w !! o ≫= DSH.getHashFromObject (this w).

Definition I1 (w : world) : Prop :=
  ∀ o M h, membership w o = Some M → h ∈ M →
           ∃ bucket, table w !! h = Some bucket ∧ o ∈ bucket.

Definition I2 (w : world) : Prop :=
  ∀ h bucket o, table w !! h = Some bucket → o ∈ bucket →
                ∃ M, membership w o = Some M ∧ h ∈ M.

Definition I3 (w : world) : Prop :=
  ∀ h bucket, table w !! h = Some bucket → bucket ≠ ∅.

Definition invariants (w : world) : Prop := I1 w ∧ I2 w ∧ I3 w.

(** The discipline of a caller that never calls [add] on a tracked object
    whose covering set is no longer its membership set. *)
Definition add_permitted (o : objref) (w : world) : bool :=
  match membership w o with
  | None => true
  | Some M => bool_decide (covering w o = Some M)
  end.

Definition disciplined (ev : event) (w : world) : bool :=
  match ev with
  | Add o => add_permitted o w
  | _ => true
  end.

(** ** The scenario of the specification *)

Definition objA : objref := 1%positive.
Definition objB : objref := 2%positive.

(** [A = {x:10, y:20, width:32, height:32}] and
    [B = {x:200, y:200, width:10, height:10}] added in turn to a fresh index
    (cell size 32, overflow 0). *)
Definition scenario_adds : list event :=
  [ Place objA (Num.of_Z 10) (Num.of_Z 20) (Num.of_Z 32) (Num.of_Z 32); Add objA;
    Place objB (Num.of_Z 200) (Num.of_Z 200) (Num.of_Z 10) (Num.of_Z 10); Add objB ].

(** [A] moved to [{x:200, y:205}] and updated. *)
Definition scenario_move : list event :=
  [ Place objA (Num.of_Z 200) (Num.of_Z 205) (Num.of_Z 32) (Num.of_Z 32); Update objA ].

(** [A] added, moved, and added again. *)
Definition double_add : list event :=
  [ Place objA (Num.of_Z 10) (Num.of_Z 20) (Num.of_Z 32) (Num.of_Z 32); Add objA;
    Place objA (Num.of_Z 200) (Num.of_Z 205) (Num.of_Z 32) (Num.of_Z 32); Add objA ].

(** The state a caller reaches from a fresh index. *)
Definition after (evs : list event) : world := default empty_world (run evs empty_world).

(** The scenario followed by [clearAll()]. *)
Definition cleared : world :=
  default empty_world (world_after (DSH.clearAll (after scenario_adds))).

(** [A] added, moved and added again, then [B = {x:-16, y:16, width:2,
    height:2}] added where [A] was. *)
Definition stale_add : list event :=
  double_add ++
  [ Place objB (Num.of_Z (-16)) (Num.of_Z 16) (Num.of_Z 2) (Num.of_Z 2); Add objB ].

(** The cells of an object's current bounding box. *)
Definition cells (w : world) (o : objref) : option (list (Z * Z)) :=
  heap w !! o ≫= DSH.covering_cells (this w).

(** ** Boxes for the cell-size comparison *)





(** ** Cell sizes that are powers of two *)

(** The number [2^k]. *)
Definition pow2 (k : Z) : number := S754_finite false 4503599627370496 (k - 52).


(** Zero, or a normal number of magnitude below [2^52] and at least
    [2^(k - 1022)]: scaling it by [2^-k] is exact and its floor is an integer
    of magnitude at most [2^52]. *)
Definition regular (k : Z) (f : number) : bool :=
  match f with
  | S754_zero _ => true
  | S754_finite _ m e => (Z.pos (digits2_pos m) =? 53) && (k - 1074 <=? e) && (e <=? -1)
  | _ => false
  end.

(** The number [f] is the integer [z], written with a mantissa of 53 bits. *)
Definition holds_integer (f : number) (z : Z) : Prop :=
  match f with
  | S754_zero _ => z = 0
  | S754_finite s m e =>
      -52 ≤ e ≤ 0 ∧ Z.pos (digits2_pos m) = 53 ∧
      Z.pos m = Z.abs z * 2 ^ (- e) ∧ s = (z <? 0) ∧ z ≠ 0
  | _ => False
  end.

(** The cell of a regular coordinate for cell size [2^k]: the floor of the
    coordinate over [2^k]. *)
Definition cell_coord (k : Z) (f : number) : Z :=
  match f with
  | S754_finite s m e =>
      let d := 2 ^ (k - e) in
      if s then - ((Z.pos m + d - 1) / d) else Z.pos m / d
  | _ => 0
  end.

(** The index with cell size [2^k] and overflow [n]. *)
Definition pow2_index (k n : Z) (tbl : gmap key (gset objref)) : DynamicSpatialHash :=
  mkIndex (pow2 (- k)) tbl (Num.of_Z n).

(** ** Callers that also clear buckets *)

(** A call of a caller, or one of the two calls that drop buckets without
    looking at the objects in them. *)
Inductive action :=
| Call (ev : event)
| Clear (h : key)
| ClearAll.

Definition perform (a : action) (w : world) : option world :=
  match a with
  | Call ev => step ev w
  | Clear h => world_after (DSH.clear h w)
  | ClearAll => world_after (DSH.clearAll w)
  end.

Fixpoint perform_if (permitted : action -> world -> bool) (acts : list action) (w : world) :
    option world :=
  match acts with
  | [] => Some w
  | a :: acts =>
      if permitted a w then w' ← perform a w; perform_if permitted acts w' else None
  end.

(** The discipline of [disciplined], which says nothing of the clearing
    calls. *)
Definition careful (a : action) (w : world) : bool :=
  match a with
  | Call ev => disciplined ev w
  | _ => true
  end.

(** The objects in the bucket of a key; none when the key has no bucket. *)
Definition bucket_at (w : world) (h : key) : gset objref := default ∅ (DSH.get h w).

(** Every key of the table and of a membership set is an unsigned 32-bit
    integer. *)
Definition keys_are_uint32 (w : world) : Prop :=
  (∀ h bucket, table w !! h = Some bucket → 0 ≤ h < 2 ^ 32) ∧
  (∀ o M h, membership w o = Some M → h ∈ M → 0 ≤ h < 2 ^ 32).

(** The events a caller makes when [add] is only called where [guard]
    allows it. *)
Definition guarded (guard : objref → world → bool) (ev : event) (w : world) : bool :=
  match ev with
  | Add o => guard o w
  | _ => true
  end.

(** What a call on one object must leave alone: the configuration, the other
    objects, and the place of the other objects in every bucket. *)
Definition leaves_others (o : objref) (w w' : world) : Prop :=
  priv_cellSize (this w') = priv_cellSize (this w) ∧
  overflow (this w') = overflow (this w) ∧
  ∀ o', o' ≠ o →
        heap w' !! o' = heap w !! o' ∧
        ∀ h, o' ∈ bucket_at w' h ↔ o' ∈ bucket_at w h.

(** ** Further scenarios *)

(** The scenario with the bucket of the key 0 cleared, [A] updated, the table
    cleared and [B] deleted. *)
Definition mixed_calls : list action :=
  (Call <$> scenario_adds) ++ [Clear 0; Call (Update objA); ClearAll; Call (Delete objB)].

(** [B] placed beside the tracked [A], and not added yet. *)
Definition before_B : world := after (firstn 3 scenario_adds).

(** [A] moved, and not updated yet. *)
Definition moved_A : world := after (scenario_adds ++ firstn 1 scenario_move).

(** A box whose [x] is NaN, and one whose [x] is infinite. *)
Definition NaN_box : JSObject :=
  mkObject Num.NaN (Num.of_Z 0) (Num.of_Z 1) (Num.of_Z 1) None.
Definition unbounded_box : JSObject :=
  mkObject Num.Infinity (Num.of_Z 0) (Num.of_Z 1) (Num.of_Z 1) None.

(** The box of [A] in the scenario. *)
Definition box_A : JSObject :=
  mkObject (Num.of_Z 10) (Num.of_Z 20) (Num.of_Z 32) (Num.of_Z 32) None.

(** * Proofs *)

(** ** The two loops over a membership set, bucket by bucket *)

Section Loops.

Implicit Types (m : gmap key (gset objref)) (M : gset key) (h : key) (o : objref).

Lemma add_each_lookup o h m h' :
  DSH.add_each o h m !! h' =
  if decide (h' = h) then Some (default ∅ (m !! h) ∪ {[o]}) else m !! h'.
Proof.
  unfold DSH.add_each. case_decide as Hh.
  - subst h'. destruct (m !! h) as [b|] eqn:E.
    + rewrite lookup_alter_eq, E. reflexivity.
    + rewrite lookup_alter_eq, lookup_insert_eq. reflexivity.
  - destruct (m !! h) as [b|] eqn:E.
    + rewrite lookup_alter_ne by congruence. reflexivity.
    + rewrite lookup_alter_ne, lookup_insert_ne by congruence. reflexivity.
Qed.

Lemma delete_each_lookup o h m h' :
  DSH.delete_each o h m !! h' =
  if decide (h' = h) then without o (m !! h) else m !! h'.
Proof.
  unfold DSH.delete_each, DSH.clear_bucket, without.
  destruct (m !! h) as [b|] eqn:E.
  - rewrite lookup_alter_eq, E. simpl.
    destruct (decide (size (b ∖ {[o]}) = 0%nat)) as [Hs|Hs].
    + apply size_empty_inv in Hs. apply leibniz_equiv in Hs.
      destruct (decide (h' = h)) as [->|Hne].
      * rewrite lookup_delete_eq. destruct (decide (b ∖ {[o]} = ∅)); congruence.
      * rewrite lookup_delete_ne, lookup_alter_ne by congruence. reflexivity.
    + assert (b ∖ {[o]} ≠ ∅) as Hb.
      { intros Hb. apply Hs. rewrite Hb. apply size_empty. }
      destruct (decide (h' = h)) as [->|Hne].
      * rewrite lookup_alter_eq, E. simpl.
        destruct (decide (b ∖ {[o]} = ∅)); congruence.
      * rewrite lookup_alter_ne by congruence. reflexivity.
  - case_decide; subst; [exact E | reflexivity].
Qed.

Lemma add_loop_lookup o M m h :
  set_fold (DSH.add_each o) m M !! h =
  if decide (h ∈ M) then Some (default ∅ (m !! h) ∪ {[o]}) else m !! h.
Proof.
  revert h.
  pose (P := λ (r : gmap key (gset objref)) (X : gset key), ∀ h, r !! h =
           if decide (h ∈ X) then Some (default ∅ (m !! h) ∪ {[o]}) else m !! h).
  apply (set_fold_ind_L P); subst P; simpl.
  - intros h. rewrite decide_False by set_solver. reflexivity.
  - clear M. intros k M r Hk IH h. rewrite add_each_lookup.
    destruct (decide (h = k)) as [->|Hne].
    + rewrite IH, decide_False by exact Hk.
      rewrite decide_True by set_solver. reflexivity.
    + rewrite IH. destruct (decide (h ∈ M)).
      * rewrite decide_True by set_solver. reflexivity.
      * rewrite decide_False by set_solver. reflexivity.
Qed.

Lemma delete_loop_lookup o M m h :
  set_fold (DSH.delete_each o) m M !! h =
  if decide (h ∈ M) then without o (m !! h) else m !! h.
Proof.
  revert h.
  pose (P := λ (r : gmap key (gset objref)) (X : gset key), ∀ h, r !! h =
           if decide (h ∈ X) then without o (m !! h) else m !! h).
  apply (set_fold_ind_L P); subst P; simpl.
  - intros h. rewrite decide_False by set_solver. reflexivity.
  - clear M. intros k M r Hk IH h. rewrite delete_each_lookup.
    destruct (decide (h = k)) as [->|Hne].
    + rewrite IH, decide_False by exact Hk.
      rewrite decide_True by set_solver. reflexivity.
    + rewrite IH. destruct (decide (h ∈ M)).
      * rewrite decide_True by set_solver. reflexivity.
      * rewrite decide_False by set_solver. reflexivity.
Qed.

Lemma elem_of_query_bucket o (bucket acc : gset objref) b :
  b ∈ DSH.query_bucket o bucket acc ↔ b ∈ acc ∨ (b ∈ bucket ∧ b ≠ o).
Proof.
  unfold DSH.query_bucket.
  pose (P := λ (r X : gset objref), b ∈ r ↔ b ∈ acc ∨ (b ∈ X ∧ b ≠ o)).
  apply (set_fold_ind_L P); subst P; simpl.
  - set_solver.
  - intros k X r Hk IH. case_decide; set_solver.
Qed.

End Loops.

(** ** What [add] and [delete] do to the table and to the heap *)

Section Effects.

Implicit Types (w : world) (o : objref) (M : gset key) (h : key).

Lemma add_returns o w obj M :
  heap w !! o = Some obj →
  DSH.getHashFromObject (this w) obj = Some M →
  ∃ w', DSH.add o w = Return This w' ∧
        this w' = DSH.with_table (table w') (this w) ∧
        (∀ h, table w' !! h =
              if decide (h ∈ M) then Some (default ∅ (table w !! h) ∪ {[o]})
              else table w !! h) ∧
        (∀ o', membership w' o' =
               if decide (o' = o) then Some M else membership w o') ∧
        (∀ o', o' ≠ o → heap w' !! o' = heap w !! o') ∧
        heap w' !! o = Some (DSH.with_hashes (Some M) obj).
Proof.
  intros Hobj Hcov. unfold DSH.add. rewrite Hobj, Hcov.
  eexists. split; [reflexivity|]. unfold table, membership; simpl.
  split; [reflexivity|]. split; [intros h; apply add_loop_lookup|].
  split; [|split].
  - intros o'. case_decide as Ho.
    + subst o'. rewrite lookup_insert_eq. reflexivity.
    + rewrite lookup_insert_ne by congruence. reflexivity.
  - intros o' Ho. rewrite lookup_insert_ne by congruence. reflexivity.
  - apply lookup_insert_eq.
Qed.

Lemma delete_returns o w obj M :
  heap w !! o = Some obj →
  __spatialHashes obj = Some M →
  ∃ w', DSH.delete o w = Return This w' ∧
        this w' = DSH.with_table (table w') (this w) ∧
        (∀ h, table w' !! h =
              if decide (h ∈ M) then without o (table w !! h) else table w !! h) ∧
        (∀ o', membership w' o' =
               if decide (o' = o) then None else membership w o') ∧
        (∀ o', o' ≠ o → heap w' !! o' = heap w !! o') ∧
        heap w' !! o = Some (DSH.with_hashes None obj).
Proof.
  intros Hobj Hm. unfold DSH.delete. rewrite Hobj, Hm.
  eexists. split; [reflexivity|]. unfold table, membership; simpl.
  split; [reflexivity|]. split; [intros h; apply delete_loop_lookup|].
  split; [|split].
  - intros o'. case_decide as Ho.
    + subst o'. rewrite lookup_insert_eq. reflexivity.
    + rewrite lookup_insert_ne by congruence. reflexivity.
  - intros o' Ho. rewrite lookup_insert_ne by congruence. reflexivity.
  - apply lookup_insert_eq.
Qed.

Lemma delete_untracked o w obj :
  heap w !! o = Some obj → __spatialHashes obj = None →
  DSH.delete o w = Return Undefined w.
Proof. intros Hobj Hm. unfold DSH.delete. rewrite Hobj, Hm. reflexivity. Qed.

Lemma elem_of_without o (b : option (gset objref)) bucket o' :
  without o b = Some bucket → o' ∈ bucket ↔ o' ≠ o ∧ ∃ b0, b = Some b0 ∧ o' ∈ b0.
Proof.
  unfold without. destruct b as [b0|]; [|discriminate].
  case_decide; [discriminate|]. intros [= <-]. split.
  - intros Hin. split; [set_solver|]. exists b0. split; [reflexivity|set_solver].
  - intros [Hne (b1 & [= <-] & Hin)]. set_solver.
Qed.

Lemma without_nonempty o (b : option (gset objref)) bucket :
  without o b = Some bucket → bucket ≠ ∅.
Proof.
  unfold without. destruct b as [b0|]; [|discriminate].
  case_decide; [discriminate|]. congruence.
Qed.

Lemma without_keeps o (b0 : gset objref) o' :
  o' ∈ b0 → o' ≠ o → ∃ bucket, without o (Some b0) = Some bucket ∧ o' ∈ bucket.
Proof.
  intros Hin Hne. unfold without. rewrite decide_False by set_solver.
  eexists. split; [reflexivity|set_solver].
Qed.

End Effects.

(** ** The invariants through the calls *)

Section Preservation.

Implicit Types (w : world) (o : objref) (M : gset key) (h : key).

Lemma delete_tracked_preserves o w w' obj M :
  invariants w →
  heap w !! o = Some obj → __spatialHashes obj = Some M →
  DSH.delete o w = Return This w' →
  invariants w' ∧ membership w' o = None.
Proof.
  intros (H1 & H2 & H3) Hobj Hm Hdel.
  destruct (delete_returns o w obj M Hobj Hm) as (w1 & Hw1 & _ & Ht & Hmem & _).
  rewrite Hw1 in Hdel. injection Hdel as <-.
  assert (membership w o = Some M) as HmO.
  { unfold membership. rewrite Hobj. exact Hm. }
  split; [|rewrite Hmem, decide_True by reflexivity; reflexivity].
  split; [|split].
  - intros o1 M1 h Hm1 Hh. rewrite Hmem in Hm1.
    case_decide as Ho; [discriminate|].
    destruct (H1 o1 M1 h Hm1 Hh) as (b & Hb & Hin).
    rewrite Ht, Hb. case_decide.
    + apply without_keeps; assumption.
    + eauto.
  - intros h bucket o1 Hb Hin. rewrite Ht in Hb. rewrite Hmem.
    case_decide as HhM.
    + apply (elem_of_without _ _ _ o1) in Hb. apply Hb in Hin.
      destruct Hin as (Hne & b0 & Hb0 & Hin0).
      rewrite decide_False by exact Hne. eauto.
    + destruct (H2 h bucket o1 Hb Hin) as (M1 & Hm1 & Hh1).
      case_decide as Ho.
      * subst o1. rewrite HmO in Hm1. injection Hm1 as <-. contradiction.
      * eauto.
  - intros h bucket Hb. rewrite Ht in Hb. case_decide.
    + eapply without_nonempty; eassumption.
    + eauto.
Qed.

Lemma add_preserves o w w' obj M :
  invariants w →
  heap w !! o = Some obj →
  DSH.getHashFromObject (this w) obj = Some M →
  (∀ M0, membership w o = Some M0 → M0 = M) →
  DSH.add o w = Return This w' →
  invariants w'.
Proof.
  intros (H1 & H2 & H3) Hobj Hcov Hold Hadd.
  destruct (add_returns o w obj M Hobj Hcov) as (w1 & Hw1 & _ & Ht & Hmem & _).
  rewrite Hw1 in Hadd. injection Hadd as <-.
  split; [|split].
  - intros o1 M1 h Hm1 Hh. rewrite Hmem in Hm1. rewrite Ht.
    destruct (decide (o1 = o)) as [->|Ho].
    + injection Hm1 as <-. rewrite decide_True by exact Hh.
      eexists. split; [reflexivity|set_solver].
    + destruct (H1 o1 M1 h Hm1 Hh) as (b & Hb & Hin). rewrite Hb.
      case_decide; eexists; (split; [reflexivity|]); simpl; set_solver.
  - intros h bucket o1 Hb Hin. rewrite Ht in Hb. rewrite Hmem.
    destruct (decide (h ∈ M)) as [HhM|HhM].
    + injection Hb as <-.
      destruct (decide (o1 = o)) as [->|Ho]; [eauto|].
      destruct (table w !! h) as [b0|] eqn:Hb0; simpl in Hin; [|set_solver].
      apply (H2 h b0 o1 Hb0). set_solver.
    + destruct (H2 h bucket o1 Hb Hin) as (M1 & Hm1 & Hh1).
      destruct (decide (o1 = o)) as [->|Ho]; [|eauto].
      apply Hold in Hm1. subst M1. contradiction.
  - intros h bucket Hb. rewrite Ht in Hb. case_decide.
    + injection Hb as <-. set_solver.
    + eauto.
Qed.

Lemma add_permitted_spec o w obj :
  heap w !! o = Some obj → add_permitted o w = true →
  ∀ M M0, DSH.getHashFromObject (this w) obj = Some M →
          membership w o = Some M0 → M0 = M.
Proof.
  intros Hobj Hp M M0 Hcov Hm. unfold add_permitted in Hp. rewrite Hm in Hp.
  apply bool_decide_eq_true in Hp. unfold covering in Hp.
  rewrite Hobj in Hp. simpl in Hp. congruence.
Qed.

Lemma add_step_preserves o w w' :
  invariants w → add_permitted o w = true →
  world_after (DSH.add o w) = Some w' → invariants w'.
Proof.
  intros Hinv Hp Hw. unfold DSH.add in Hw.
  destruct (heap w !! o) as [obj|] eqn:Hobj; [|injection Hw as <-; exact Hinv].
  destruct (DSH.getHashFromObject (this w) obj) as [M|] eqn:Hcov; [|discriminate].
  eapply (add_preserves o w w' obj M); try eassumption.
  - intros M0. eapply add_permitted_spec; eassumption.
  - unfold DSH.add. rewrite Hobj, Hcov. simpl in Hw. injection Hw as <-. reflexivity.
Qed.

Lemma delete_step_preserves o w w' :
  invariants w → world_after (DSH.delete o w) = Some w' → invariants w'.
Proof.
  intros Hinv Hw.
  destruct (heap w !! o) as [obj|] eqn:Hobj.
  - destruct (__spatialHashes obj) as [M|] eqn:Hm.
    + destruct (delete_returns o w obj M Hobj Hm) as (w1 & Hw1 & _).
      rewrite Hw1 in Hw. injection Hw as <-.
      eapply delete_tracked_preserves; eassumption.
    + rewrite (delete_untracked o w obj Hobj Hm) in Hw.
      injection Hw as <-. exact Hinv.
  - unfold DSH.delete in Hw. rewrite Hobj in Hw. injection Hw as <-. exact Hinv.
Qed.

Lemma update_step_preserves o w w' :
  invariants w → world_after (DSH.update o w) = Some w' → invariants w'.
Proof.
  intros Hinv Hw. unfold DSH.update in Hw.
  destruct (heap w !! o) as [obj|] eqn:Hobj.
  - destruct (__spatialHashes obj) as [M|] eqn:Hm.
    + destruct (delete_returns o w obj M Hobj Hm) as (w1 & Hw1 & _).
      rewrite Hw1 in Hw.
      destruct (delete_tracked_preserves o w w1 obj M Hinv Hobj Hm Hw1)
        as [Hinv1 Hnone].
      apply (add_step_preserves o w1 w' Hinv1).
      * unfold add_permitted. rewrite Hnone. reflexivity.
      * destruct (DSH.add o w1); exact Hw.
    + rewrite (delete_untracked o w obj Hobj Hm) in Hw.
      injection Hw as <-. exact Hinv.
  - unfold DSH.delete in Hw. rewrite Hobj in Hw. injection Hw as <-. exact Hinv.
Qed.

Lemma place_preserves o bx by_ bw bh w :
  invariants w → invariants (place o bx by_ bw bh w).
Proof.
  assert (∀ o', membership (place o bx by_ bw bh w) o' = membership w o') as Hmem.
  { intros o'. unfold membership, place; simpl.
    destruct (decide (o' = o)) as [->|Ho].
    - rewrite lookup_insert_eq. reflexivity.
    - rewrite lookup_insert_ne by congruence. reflexivity. }
  intros (H1 & H2 & H3). split; [|split].
  - intros o1 M1 h Hm1. rewrite Hmem in Hm1. apply (H1 o1 M1 h Hm1).
  - intros h bucket o1 Hb Hin. rewrite Hmem. apply (H2 h bucket o1 Hb Hin).
  - exact H3.
Qed.

Lemma set_cellSize_preserves v w w' :
  invariants w → world_after (DSH.set_cellSize v w) = Some w' → invariants w'.
Proof.
  intros Hinv Hw. unfold DSH.set_cellSize in Hw.
  destruct v; try (injection Hw as <-; exact Hinv).
  destruct (Num.leb n (Num.of_Z 0)); injection Hw as <-; exact Hinv.
Qed.

Lemma step_preserves ev w w' :
  invariants w → disciplined ev w = true → step ev w = Some w' → invariants w'.
Proof.
  intros Hinv Hd Hs. destruct ev; simpl in Hs, Hd.
  - injection Hs as <-. apply place_preserves, Hinv.
  - eapply set_cellSize_preserves; eassumption.
  - injection Hs as <-. exact Hinv.
  - eapply add_step_preserves; eassumption.
  - eapply delete_step_preserves; eassumption.
  - eapply update_step_preserves; eassumption.
Qed.

Lemma run_if_preserves evs w w' :
  invariants w → run_if disciplined evs w = Some w' → invariants w'.
Proof.
  revert w. induction evs as [|ev evs IH]; intros w Hinv Hrun; simpl in Hrun.
  - injection Hrun as <-. exact Hinv.
  - destruct (disciplined ev w) eqn:Hd; [|discriminate].
    destruct (step ev w) as [w1|] eqn:Hs; [|discriminate].
    simpl in Hrun. apply (IH w1); [|exact Hrun].
    eapply step_preserves; eassumption.
Qed.

Lemma constructor_invariants v w :
  DSH.constructor v ∅ = Return tt w → invariants w.
Proof.
  intros Hc.
  assert (table w = ∅ ∧ heap w = ∅) as [Ht Hh].
  { unfold DSH.constructor, DSH.set_cellSize in Hc.
    destruct v; try discriminate;
      repeat match type of Hc with
             | context [if ?b then _ else _] => destruct b
             end; try discriminate; injection Hc as <-; split; reflexivity. }
  split; [|split].
  - intros o M h Hm. unfold membership in Hm. rewrite Hh, lookup_empty in Hm.
    discriminate.
  - intros h bucket o Hb. rewrite Ht, lookup_empty in Hb. discriminate.
  - intros h bucket Hb. rewrite Ht, lookup_empty in Hb. discriminate.
Qed.

End Preservation.

(** ** Re-filing an object where it already is *)

Section Refile.

Implicit Types (w : world) (o : objref) (M : gset key) (h : key).

Lemma world_eq w w' :
  priv_cellSize (this w) = priv_cellSize (this w') →
  overflow (this w) = overflow (this w') →
  table w = table w' → heap w = heap w' → w = w'.
Proof.
  destruct w as [[c t ov] hp], w' as [[c' t' ov'] hp']. unfold table. simpl.
  intros -> -> -> ->. reflexivity.
Qed.

(** The covering set reads the cell size and the overflow of the index and the
    bounding box of the object, nothing else. *)
Lemma getHashFromObject_ext t t' obj obj' :
  priv_cellSize t = priv_cellSize t' → overflow t = overflow t' →
  x obj = x obj' → y obj = y obj' → width obj = width obj' → height obj = height obj' →
  DSH.getHashFromObject t obj = DSH.getHashFromObject t' obj'.
Proof.
  intros Hc Ho Hx Hy Hw Hh.
  unfold DSH.getHashFromObject, DSH.covering_cells,
    DSH.minX, DSH.maxX, DSH.minY, DSH.maxY.
  rewrite Hc, Ho, Hx, Hy, Hw, Hh. reflexivity.
Qed.

Lemma with_hashes_id obj M :
  __spatialHashes obj = Some M → DSH.with_hashes (Some M) obj = obj.
Proof. destruct obj. simpl. intros ->. reflexivity. Qed.

Lemma refile_bucket o (b : gset objref) :
  o ∈ b → default ∅ (without o (Some b)) ∪ {[o]} = b.
Proof.
  intros Hin. unfold without. apply set_eq. intros o'.
  case_decide as He; simpl.
  - rewrite elem_of_union, elem_of_singleton. split.
    + intros [Hemp | ->]; [set_solver | exact Hin].
    + intros Ho'. destruct (decide (o' = o)) as [->|Hne]; [right; reflexivity|].
      exfalso. assert (o' ∈ b ∖ {[o]}) as Hd by set_solver.
      rewrite He in Hd. set_solver.
  - rewrite elem_of_union, elem_of_difference, elem_of_singleton. split.
    + intros [[Ho' _] | ->]; assumption.
    + intros Ho'. destruct (decide (o' = o)); [right|left]; done.
Qed.

(** [add] on an object filed under exactly its covering set changes
    nothing. *)
Lemma add_fixed o w obj M :
  heap w !! o = Some obj → __spatialHashes obj = Some M →
  DSH.getHashFromObject (this w) obj = Some M →
  (∀ h, h ∈ M → ∃ bucket, table w !! h = Some bucket ∧ o ∈ bucket) →
  DSH.add o w = Return This w.
Proof.
  intros Hobj Hm Hcov Hfiled.
  destruct (add_returns o w obj M Hobj Hcov) as (w1 & Hw1 & Hthis & Ht & _ & Hother & Ho).
  rewrite Hw1. f_equal. apply world_eq.
  - rewrite Hthis. reflexivity.
  - rewrite Hthis. reflexivity.
  - apply map_eq. intros h. rewrite Ht. case_decide as Hh; [|reflexivity].
    destruct (Hfiled h Hh) as (b & Hb & Hin). rewrite Hb. simpl.
    f_equal. set_solver.
  - apply map_eq. intros o'. destruct (decide (o' = o)) as [->|Hne].
    + rewrite Ho, Hobj, (with_hashes_id obj M Hm). reflexivity.
    + apply Hother, Hne.
Qed.

(** So does [update]: it takes the object out of its buckets and puts it
    back. *)
Lemma update_fixed o w obj M :
  heap w !! o = Some obj → __spatialHashes obj = Some M →
  DSH.getHashFromObject (this w) obj = Some M →
  (∀ h, h ∈ M → ∃ bucket, table w !! h = Some bucket ∧ o ∈ bucket) →
  DSH.update o w = Return Undefined w.
Proof.
  intros Hobj Hm Hcov Hfiled. unfold DSH.update.
  destruct (delete_returns o w obj M Hobj Hm)
    as (w1 & Hw1 & Hthis1 & Ht1 & _ & Hother1 & Ho1).
  rewrite Hw1.
  assert (DSH.getHashFromObject (this w1) (DSH.with_hashes None obj) = Some M) as Hcov1.
  { rewrite <- Hcov. apply getHashFromObject_ext; rewrite ?Hthis1; reflexivity. }
  destruct (add_returns o w1 _ M Ho1 Hcov1)
    as (w2 & Hw2 & Hthis2 & Ht2 & _ & Hother2 & Ho2).
  rewrite Hw2. f_equal. apply world_eq.
  - rewrite Hthis2, Hthis1. reflexivity.
  - rewrite Hthis2, Hthis1. reflexivity.
  - apply map_eq. intros h. rewrite Ht2, Ht1. case_decide as Hh; [|reflexivity].
    destruct (Hfiled h Hh) as (b & Hb & Hin). rewrite Hb.
    f_equal. apply refile_bucket, Hin.
  - apply map_eq. intros o'. destruct (decide (o' = o)) as [->|Hne].
    + rewrite Ho2, Hobj. f_equal. destruct obj. unfold DSH.with_hashes.
      simpl in *. rewrite Hm. reflexivity.
    + rewrite Hother2, Hother1 by exact Hne. reflexivity.
Qed.

(** After [add] returns, the object is filed under exactly its covering
    set. *)
Lemma add_files o w w' r :
  DSH.add o w = Return r w' →
  ∃ obj M, heap w' !! o = Some obj ∧ __spatialHashes obj = Some M ∧
           DSH.getHashFromObject (this w') obj = Some M ∧
           (∀ h, h ∈ M → ∃ bucket, table w' !! h = Some bucket ∧ o ∈ bucket).
Proof.
  intros Hadd. pose proof Hadd as Hadd'. unfold DSH.add in Hadd'.
  destruct (heap w !! o) as [obj|] eqn:Hobj; [|discriminate].
  destruct (DSH.getHashFromObject (this w) obj) as [M|] eqn:Hcov; [|discriminate].
  clear Hadd'.
  destruct (add_returns o w obj M Hobj Hcov) as (w1 & Hw1 & Hthis & Ht & _ & _ & Ho).
  rewrite Hw1 in Hadd. injection Hadd as _ <-.
  exists (DSH.with_hashes (Some M) obj), M.
  split; [exact Ho|]. split; [reflexivity|]. split.
  - rewrite <- Hcov. apply getHashFromObject_ext; rewrite ?Hthis; reflexivity.
  - intros h Hh. rewrite Ht, decide_True by exact Hh.
    eexists. split; [reflexivity|set_solver].
Qed.

Lemma update_returns_inv o w r w' :
  DSH.update o w = Return r w' →
  r = Undefined ∧ ∃ w1, DSH.delete o w = Return This w1 ∧ DSH.add o w1 = Return This w'.
Proof.
  unfold DSH.update. intros Hu.
  destruct (DSH.delete o w) as [[] w1| |]; try discriminate.
  destruct (DSH.add o w1) as [r1 w2| |] eqn:Hadd; try discriminate.
  injection Hu as <- <-. split; [reflexivity|]. exists w1. split; [reflexivity|].
  unfold DSH.add in Hadd |- *.
  destruct (heap w1 !! o) as [obj|]; [|discriminate].
  destruct (DSH.getHashFromObject (this w1) obj); [|discriminate].
  injection Hadd as <- <-. reflexivity.
Qed.

End Refile.

(** ** The key encoding *)

(** C4: [hash] is symmetric in its two arguments and vanishes on the
    diagonal, so the cells (0,0) and (6,6), and any (a,b) and (b,a), share
    one bucket key: the encoding is not injective. *)
Theorem C4_hash_symmetric :
  (∀ a b : number, DSH.hash a b = DSH.hash b a) ∧
  (∀ c : number, DSH.hash c c = 0) ∧
  (∀ a b : Z, DSH.hash_cell (a, b) = DSH.hash_cell (b, a)) ∧
  (∀ c : Z, DSH.hash_cell (c, c) = 0) ∧
  ((0, 0) ≠ (6, 6) ∧ DSH.hash_cell (0, 0) = DSH.hash_cell (6, 6)) ∧
  ((1, 2) ≠ (2, 1) ∧ DSH.hash_cell (1, 2) = DSH.hash_cell (2, 1)).
Proof.
  assert (∀ a b : number, DSH.hash a b = DSH.hash b a) as Hsym.
  { intros a b. unfold DSH.hash. rewrite Z.lxor_comm. reflexivity. }
  assert (∀ c : number, DSH.hash c c = 0) as Hdiag.
  { intros c. unfold DSH.hash. rewrite Z.lxor_nilpotent. reflexivity. }
  split; [exact Hsym|]. split; [exact Hdiag|].
  split; [intros a b; apply Hsym|]. split; [intros c; apply Hdiag|].
  split; (split; [discriminate|]).
  - transitivity 0; [apply (Hdiag (Num.of_Z 0)) | symmetry; apply (Hdiag (Num.of_Z 6))].
  - apply Hsym.
Qed.

(** ** The cell size *)

Lemma positive_not_leb_zero n :
  Num.ltb (Num.of_Z 0) n = true → Num.leb n (Num.of_Z 0) = false.
Proof. destruct n as [[]|[]| |[] m e]; simpl; intros H; try discriminate; reflexivity. Qed.



(** NaN is a number and is not [<= 0]: it is stored; so is [Infinity], whose
    reciprocal is 0. *)
Lemma set_cellSize_NaN_Infinity (w : world) :
  (∃ w', DSH.set_cellSize (VNumber Num.NaN) w = Return tt w' ∧
         DSH.get_cellSize w' = Num.NaN) ∧
  (∃ w', DSH.set_cellSize (VNumber Num.Infinity) w = Return tt w' ∧
         DSH.get_cellSize w' = Num.of_Z 0).
Proof. split; eexists; split; reflexivity. Qed.

(** C10: after a positive number [n] is assigned to [cellSize], reading the
    property gives the stored reciprocal [1 / n]; a fresh index with the
    default cell size 32 reports [1 / 32], which is not 32. *)
Theorem C10_cellSize_reads_reciprocal :
  (∀ (n : number) (w : world),
     Num.ltb (Num.of_Z 0) n = true →
     ∃ w', DSH.set_cellSize (VNumber n) w = Return tt w' ∧
           DSH.get_cellSize w' = Num.div (Num.of_Z 1) n) ∧
  (∃ w, DSH.constructor VUndefined ∅ = Return tt w ∧
        DSH.get_cellSize w = Num.dyadic 1 (-5) ∧
        DSH.get_cellSize w ≠ Num.of_Z 32).
Proof.
  split.
  - intros n w Hn. unfold DSH.set_cellSize. rewrite (positive_not_leb_zero n Hn).
    eexists. split; reflexivity.
  - eexists. split; [reflexivity|]. split; [reflexivity|]. discriminate.
Qed.

Lemma C10_witness :
  Num.ltb (Num.of_Z 0) (Num.of_Z 128) = true ∧
  ∃ w', DSH.set_cellSize (VNumber (Num.of_Z 128)) empty_world = Return tt w' ∧
        DSH.get_cellSize w' = Num.dyadic 1 (-7).
Proof.
  split; [reflexivity|].
  destruct C10_cellSize_reads_reciprocal as [Hset _].
  destruct (Hset (Num.of_Z 128) empty_world eq_refl) as (w' & Hw' & Hget).
  exists w'. split; [exact Hw'|]. rewrite Hget. reflexivity.
Defined.

(** ** Objects that were never tracked *)

Lemma update_untracked o w obj :
  heap w !! o = Some obj → __spatialHashes obj = None →
  DSH.update o w = Throw TypeError w.
Proof.
  intros Hobj Hm. unfold DSH.update.
  rewrite (delete_untracked o w obj Hobj Hm). reflexivity.
Qed.

(** C6: on an object that was never added, [delete] returns and changes
    nothing, and [add] returns; [update] throws a TypeError, because the
    early exit of [delete] returns nothing for [update] to call [add] on. *)
Theorem C6_update_of_untracked_throws :
  let w := place objA (Num.of_Z 0) (Num.of_Z 0) (Num.of_Z 1) (Num.of_Z 1) empty_world in
  membership w objA = None ∧
  DSH.delete objA w = Return Undefined w ∧
  (∃ w', DSH.add objA w = Return This w') ∧
  DSH.update objA w = Throw TypeError w.
Proof.
  intros w. split; [reflexivity|]. split; [reflexivity|]. split.
  - eexists. vm_compute. reflexivity.
  - eapply update_untracked; reflexivity.
Qed.

(** ** The invariants over sequences of calls *)




(** ** [add] on a tracked object *)




(** ** Updating twice *)

(** C9: when [update(A)] has returned and is called again, the bounding box
    and the configuration being what they were, it returns again and leaves
    the state it found: the membership set of [A] and the result of every
    query are the same after the second call as after the first. *)
Theorem C9_update_idempotent (o : objref) (w w1 : world) (r : ret) :
  DSH.update o w = Return r w1 →
  ∃ w2, DSH.update o w1 = Return Undefined w2 ∧
        membership w2 o = membership w1 o ∧
        (∀ b, DSH.query b w2 = DSH.query b w1) ∧
        w2 = w1.
Proof.
  intros Hu. apply update_returns_inv in Hu.
  destruct Hu as (_ & w0 & _ & Hadd).
  destruct (add_files o w0 w1 This Hadd) as (obj & M & Hobj & Hm & Hcov & Hfiled).
  exists w1. split; [eapply update_fixed; eassumption|].
  split; [reflexivity|]. split; reflexivity.
Qed.

Lemma C9_witness :
  DSH.update objA (after scenario_adds) =
    Return Undefined (after (scenario_adds ++ [Update objA])) ∧
  ∃ w2, DSH.update objA (after (scenario_adds ++ [Update objA])) = Return Undefined w2 ∧
        membership w2 objA = membership (after (scenario_adds ++ [Update objA])) objA ∧
        (∀ b, DSH.query b w2 = DSH.query b (after (scenario_adds ++ [Update objA]))) ∧
        w2 = after (scenario_adds ++ [Update objA]).
Proof.
  split; [vm_compute; reflexivity|].
  apply (C9_update_idempotent objA (after scenario_adds)
           (after (scenario_adds ++ [Update objA])) Undefined).
  vm_compute. reflexivity.
Defined.

(** ** What [query] returns *)

Lemma elem_of_query_loop (o : objref) (t : gmap key (gset objref)) (M : gset key) (b : objref) :
  b ∈ set_fold (λ h objects,
                  match t !! h with
                  | None => objects
                  | Some bucket => DSH.query_bucket o bucket objects
                  end) (∅ : gset objref) M
  ↔ b ≠ o ∧ ∃ h bucket, h ∈ M ∧ t !! h = Some bucket ∧ b ∈ bucket.
Proof.
  pose (P := λ (r : gset objref) (X : gset key),
               b ∈ r ↔ b ≠ o ∧ ∃ h bucket, h ∈ X ∧ t !! h = Some bucket ∧ b ∈ bucket).
  apply (set_fold_ind_L P); subst P; simpl.
  - split; [set_solver|]. intros (_ & h & bucket & Hh & _). set_solver.
  - intros k X r Hk IH. destruct (t !! k) as [bk|] eqn:Hbk.
    + rewrite elem_of_query_bucket, IH. split.
      * intros [(Hne & h & bucket & Hh & Hb & Hin) | (Hin & Hne)].
        -- split; [exact Hne|]. exists h, bucket. split; [set_solver|]. eauto.
        -- split; [exact Hne|]. exists k, bk. split; [set_solver|]. eauto.
      * intros (Hne & h & bucket & Hh & Hb & Hin).
        apply elem_of_union in Hh as [Hh|Hh].
        -- apply elem_of_singleton in Hh. subst h. right.
           rewrite Hbk in Hb. injection Hb as <-. eauto.
        -- left. split; [exact Hne|]. exists h, bucket. eauto.
    + rewrite IH. split.
      * intros (Hne & h & bucket & Hh & Hb & Hin).
        split; [exact Hne|]. exists h, bucket. split; [set_solver|]. eauto.
      * intros (Hne & h & bucket & Hh & Hb & Hin).
        split; [exact Hne|]. exists h, bucket.
        apply elem_of_union in Hh as [Hh|Hh]; [|eauto].
        apply elem_of_singleton in Hh. subst h. congruence.
Qed.

Lemma query_returns (o : objref) (w : world) (M : gset key) :
  membership w o = Some M →
  ∃ R, DSH.query o w = Return R w ∧
       ∀ b, b ∈ R ↔ b ≠ o ∧ ∃ h bucket, h ∈ M ∧ table w !! h = Some bucket ∧ b ∈ bucket.
Proof.
  unfold membership, DSH.query. intros Hm.
  destruct (heap w !! o) as [obj|]; [|discriminate]. simpl in Hm. rewrite Hm.
  eexists. split; [reflexivity|]. intros b. apply elem_of_query_loop.
Qed.

(** C1 (as the code has it): in a state where I1 and I2 hold, [query(A)]
    returns exactly the tracked objects other than [A] whose membership set
    shares a bucket key with that of [A].  Every object one of whose cells is
    a cell of [A] is among them; so is an object none of whose cells is a
    cell of [A] when two of their cells have the same key. *)
Theorem C1_query_returns_key_sharers (w : world) (a : objref) (Ma : gset key) :
  I1 w → I2 w →
  membership w a = Some Ma →
  ∃ R, DSH.query a w = Return R w ∧
       (∀ b, b ∈ R ↔ b ≠ a ∧ ∃ Mb, membership w b = Some Mb ∧ Ma ∩ Mb ≠ ∅) ∧
       (∀ b ca cb c,
          b ≠ a →
          Ma = list_to_set (DSH.hash_cell <$> ca) →
          membership w b = Some (list_to_set (DSH.hash_cell <$> cb)) →
          c ∈ ca → c ∈ cb → b ∈ R).
Proof.
  intros H1 H2 Hm.
  destruct (query_returns a w Ma Hm) as (R & HR & Hin).
  exists R. split; [exact HR|].
  assert (∀ b, b ∈ R ↔ b ≠ a ∧ ∃ Mb, membership w b = Some Mb ∧ Ma ∩ Mb ≠ ∅) as Hchar.
  { intros b. rewrite Hin. split.
    - intros (Hne & h & bucket & Hh & Hb & Hbin). split; [exact Hne|].
      destruct (H2 h bucket b Hb Hbin) as (Mb & Hmb & Hhb).
      exists Mb. split; [exact Hmb|]. set_solver.
    - intros (Hne & Mb & Hmb & Hinter). split; [exact Hne|].
      apply set_choose_L in Hinter as [h Hh].
      apply elem_of_intersection in Hh as [Hha Hhb].
      destruct (H1 b Mb h Hmb Hhb) as (bucket & Hb & Hbin).
      exists h, bucket. eauto. }
  split; [exact Hchar|].
  intros b ca cb c Hne -> Hmb Hca Hcb. apply Hchar. split; [exact Hne|].
  eexists. split; [exact Hmb|].
  assert (DSH.hash_cell c ∈ (list_to_set (DSH.hash_cell <$> ca) : gset key)) as Ha.
  { apply elem_of_list_to_set, list_elem_of_fmap. eauto. }
  assert (DSH.hash_cell c ∈ (list_to_set (DSH.hash_cell <$> cb) : gset key)) as Hb.
  { apply elem_of_list_to_set, list_elem_of_fmap. eauto. }
  set_solver.
Qed.

Lemma after_invariants (evs : list event) :
  run_if disciplined evs empty_world = Some (after evs) → invariants (after evs).
Proof.
  intros Hrun. apply (run_if_preserves evs empty_world); [|exact Hrun].
  apply (constructor_invariants VUndefined). reflexivity.
Qed.

Lemma C1_witness :
  ∃ R, DSH.query objA (after scenario_adds) = Return R (after scenario_adds) ∧
       (∀ b, b ∈ R ↔
             b ≠ objA ∧
             ∃ Mb, membership (after scenario_adds) b = Some Mb ∧
                   (list_to_set [16777619; 4278189677; 4294967294; 0] : gset key) ∩ Mb ≠ ∅) ∧
       (∀ b ca cb c,
          b ≠ objA →
          (list_to_set [16777619; 4278189677; 4294967294; 0] : gset key) =
            list_to_set (DSH.hash_cell <$> ca) →
          membership (after scenario_adds) b = Some (list_to_set (DSH.hash_cell <$> cb)) →
          c ∈ ca → c ∈ cb → b ∈ R).
Proof.
  assert (invariants (after scenario_adds)) as (H1 & H2 & _).
  { apply after_invariants. vm_compute. reflexivity. }
  apply (C1_query_returns_key_sharers (after scenario_adds) objA
           (list_to_set [16777619; 4278189677; 4294967294; 0]) H1 H2).
  vm_compute. reflexivity.
Defined.

(** C1 as stated fails when the covering sets are sets of cells: in the
    scenario of the specification the cells of [A] and the cell of [B] are
    disjoint, I1 to I3 hold, and [query(A)] returns [B], because the cells
    (0,0) of [A] and (6,6) of [B] have the same key 0.  It also fails on the
    recorded sets of keys where I1 or I2 does not hold: after [clearAll()] the
    membership sets of [A] and [B] still share the key 0 and [query(A)] is
    empty; after a second [add] of the moved [A], [query(B)] returns [A]
    although their membership sets share no key. *)
Lemma C1_counterexample :
  (run scenario_adds empty_world = Some (after scenario_adds) ∧
   (I1 (after scenario_adds) ∧ I2 (after scenario_adds) ∧ I3 (after scenario_adds)) ∧
   cells (after scenario_adds) objA = Some [(-1, 0); (-1, 1); (0, 0); (0, 1)] ∧
   cells (after scenario_adds) objB = Some [(6, 6)] ∧
   membership (after scenario_adds) objA = covering (after scenario_adds) objA ∧
   membership (after scenario_adds) objB = covering (after scenario_adds) objB ∧
   objB ≠ objA ∧
   DSH.query objA (after scenario_adds) = Return {[objB]} (after scenario_adds) ∧
   ¬ (objB ∈ ({[objB]} : gset objref) ↔
      ∃ c : Z * Z, c ∈ [(-1, 0); (-1, 1); (0, 0); (0, 1)] ∧ c ∈ [(6, 6)])) ∧
  (DSH.clearAll (after scenario_adds) = Return tt cleared ∧
   membership cleared objA = Some (list_to_set [16777619; 4278189677; 4294967294; 0]) ∧
   membership cleared objB = Some {[0]} ∧
   returned (DSH.query objA cleared) = Some ∅) ∧
  (run stale_add empty_world = Some (after stale_add) ∧
   membership (after stale_add) objA = Some (list_to_set [50335405; 0]) ∧
   membership (after stale_add) objB = Some {[4278189677]} ∧
   returned (DSH.query objB (after stale_add)) = Some {[objA]}).
Proof.
  split; [|split].
  - split; [vm_compute; reflexivity|].
    split; [apply after_invariants; vm_compute; reflexivity|].
    split; [vm_compute; reflexivity|].
    split; [vm_compute; reflexivity|].
    split; [vm_compute; reflexivity|].
    split; [vm_compute; reflexivity|].
    split; [discriminate|].
    split; [vm_compute; reflexivity|].
    intros [Hc _]. destruct Hc as (c & Ha & Hb); [apply elem_of_singleton; reflexivity|].
    apply list_elem_of_singleton in Hb. subst c.
    rewrite !elem_of_cons, elem_of_nil in Ha.
    destruct Ha as [Ha | [Ha | [Ha | [Ha | []]]]]; discriminate.
  - repeat (split; [vm_compute; reflexivity|]). vm_compute. reflexivity.
  - repeat (split; [vm_compute; reflexivity|]). vm_compute. reflexivity.
Qed.

(** ** The scenario, step by step *)

(** C3 (as the code has it): with cell size 32 and overflow 0, [A] covers the
    cells with cx in {-1, 0} and cy in {0, 1} and [B] the cell (6,6), which
    is none of them; the cells (0,0) and (6,6) have the same key, so
    [query(A)] returns {B} and [query(B)] returns {A} already before the
    move, and they still do after [A] is moved and updated. *)
Theorem C3_scenario :
  run scenario_adds empty_world = Some (after scenario_adds) ∧
  DSH.get_cellSize empty_world = Num.div (Num.of_Z 1) (Num.of_Z 32) ∧
  overflow (this empty_world) = Num.of_Z 0 ∧
  cells (after scenario_adds) objA = Some [(-1, 0); (-1, 1); (0, 0); (0, 1)] ∧
  cells (after scenario_adds) objB = Some [(6, 6)] ∧
  DSH.hash_cell (0, 0) = DSH.hash_cell (6, 6) ∧
  DSH.query objA (after scenario_adds) = Return {[objB]} (after scenario_adds) ∧
  DSH.query objB (after scenario_adds) = Return {[objA]} (after scenario_adds) ∧
  run scenario_move (after scenario_adds) = Some (after (scenario_adds ++ scenario_move)) ∧
  cells (after (scenario_adds ++ scenario_move)) objA = Some [(5, 5); (5, 6); (6, 5); (6, 6)] ∧
  DSH.query objA (after (scenario_adds ++ scenario_move)) =
    Return {[objB]} (after (scenario_adds ++ scenario_move)) ∧
  DSH.query objB (after (scenario_adds ++ scenario_move)) =
    Return {[objA]} (after (scenario_adds ++ scenario_move)).
Proof.
  repeat (split; [vm_compute; reflexivity|]). vm_compute. reflexivity.
Qed.

(** C3 as stated fails: the cells of [A] are not the two cells with cy = 0,
    and neither query returns the empty set before the move. *)
Lemma C3_counterexample :
  run scenario_adds empty_world = Some (after scenario_adds) ∧
  cells (after scenario_adds) objA ≠ Some [(-1, 0); (0, 0)] ∧
  returned (DSH.query objA (after scenario_adds)) ≠ Some ∅ ∧
  returned (DSH.query objB (after scenario_adds)) ≠ Some ∅.
Proof.
  split; [vm_compute; reflexivity|].
  split; [vm_compute; discriminate|].
  split; vm_compute; discriminate.
Qed.

(** ** Arithmetic of binary64 with powers of two *)

Lemma fexp_eq n : fexp Num.prec Num.emax n = Z.max (n - 53) (-1074).
Proof. reflexivity. Qed.

Lemma iter_pos_iter {A} (f : A → A) n a : SpecFloat.iter_pos f n a = Pos.iter f a n.
Proof.
  revert a. induction n as [n IH|n IH|]; intros a; simpl.
  - rewrite !IH, <- !Pos.iter_swap. reflexivity.
  - rewrite !IH. reflexivity.
  - reflexivity.
Qed.

Lemma shr_1_iter m n :
  Pos.iter shr_1 (Build_shr_record (Z.pos (Pos.iter xO m n)) false false) n =
  Build_shr_record (Z.pos m) false false.
Proof.
  induction n as [|n IH] using Pos.peano_ind.
  - reflexivity.
  - rewrite (Pos.iter_succ n positive xO), Pos.iter_succ_r. simpl. exact IH.
Qed.

Lemma digits2_pos_iter m n :
  Z.pos (digits2_pos (Pos.iter xO m n)) = Z.pos (digits2_pos m) + Z.pos n.
Proof.
  induction n as [|n IH] using Pos.peano_ind.
  - simpl. lia.
  - rewrite Pos.iter_succ. simpl. lia.
Qed.

Lemma pos_iter_xO m n : Z.pos (Pos.iter xO m n) = Z.pos m * 2 ^ Z.pos n.
Proof.
  induction n as [|n IH] using Pos.peano_ind.
  - simpl. lia.
  - rewrite Pos.iter_succ, Pos2Z.inj_succ, Z.pow_succ_r by lia.
    rewrite Pos2Z.inj_xO, IH. lia.
Qed.

Lemma shr_fexp_canonical m e :
  Z.pos (digits2_pos m) = 53 → -1074 ≤ e ->
  shr_fexp Num.prec Num.emax (Z.pos m) e loc_Exact =
  (Build_shr_record (Z.pos m) false false, e).
Proof.
  intros Hd He. unfold shr_fexp.
  cbn [Zdigits2 shr_record_of_loc]. rewrite fexp_eq, Hd.
  replace (Z.max (53 + e - 53) (-1074) - e) with 0 by lia.
  reflexivity.
Qed.

Lemma shr_fexp_shift m n e :
  Z.pos (digits2_pos m) = 53 → -1074 ≤ e ->
  shr_fexp Num.prec Num.emax (Z.pos (Pos.iter xO m n)) (e - Z.pos n) loc_Exact =
  (Build_shr_record (Z.pos m) false false, e).
Proof.
  intros Hd He. unfold shr_fexp.
  cbn [Zdigits2 shr_record_of_loc]. rewrite fexp_eq, digits2_pos_iter, Hd.
  replace (Z.max (53 + Z.pos n + (e - Z.pos n) - 53) (-1074) - (e - Z.pos n))
    with (Z.pos n) by lia.
  cbn [shr]. rewrite iter_pos_iter, shr_1_iter. f_equal. lia.
Qed.

Lemma binary_round_aux_end s m e :
  Z.pos (digits2_pos m) = 53 → -1074 ≤ e ≤ 971 ->
  (let '(mrs, e') :=
     shr_fexp Num.prec Num.emax
       (round_nearest_even (Z.pos m) loc_Exact) e loc_Exact in
   match shr_m mrs with
   | 0 => S754_zero s
   | Z.pos m0 =>
       if e' <=? Num.emax - Num.prec then S754_finite s m0 e' else S754_infinity s
   | Z.neg _ => S754_nan
   end) = S754_finite s m e.
Proof.
  intros Hd He. cbn [round_nearest_even].
  rewrite (shr_fexp_canonical m e Hd) by lia. cbn [shr_m].
  destruct (Z.leb_spec e (Num.emax - Num.prec)) as [_|H]; [reflexivity|].
  unfold Num.emax, Num.prec in H. lia.
Qed.

(** Rounding a mantissa of 53 bits at an exponent in range changes nothing. *)
Lemma binary_round_aux_canonical s m e :
  Z.pos (digits2_pos m) = 53 → -1074 ≤ e ≤ 971 ->
  binary_round_aux Num.prec Num.emax s (Z.pos m) e loc_Exact = S754_finite s m e.
Proof.
  intros Hd He. unfold binary_round_aux.
  rewrite (shr_fexp_canonical m e Hd) by lia.
  cbn [shr_m loc_of_shr_record]. apply binary_round_aux_end; assumption.
Qed.

(** Rounding [m * 2^n] at exponent [e - n] gives back [m] at exponent [e]. *)
Lemma binary_round_aux_shift s m n e :
  Z.pos (digits2_pos m) = 53 → -1074 ≤ e ≤ 971 ->
  binary_round_aux Num.prec Num.emax s (Z.pos (Pos.iter xO m n)) (e - Z.pos n) loc_Exact =
  S754_finite s m e.
Proof.
  intros Hd He. unfold binary_round_aux.
  rewrite (shr_fexp_shift m n e Hd) by lia.
  cbn [shr_m loc_of_shr_record]. apply binary_round_aux_end; assumption.
Qed.

(** Multiplying a normal number by [2^-k] lowers its exponent by [k]. *)
Lemma mul_pow2 s m e k :
  Z.pos (digits2_pos m) = 53 → 0 ≤ k → -1074 ≤ e - k → e ≤ 971 ->
  Num.mul (S754_finite s m e) (pow2 (- k)) = S754_finite s m (e - k).
Proof.
  intros Hd Hk He1 He2. unfold Num.mul, SFmul, pow2.
  rewrite xorb_false_r.
  replace (m * 4503599627370496)%positive with (Pos.iter xO m 52)
    by (rewrite Pos.mul_comm; reflexivity).
  replace (e + (- k - 52)) with (e - k - Z.pos 52) by lia.
  apply binary_round_aux_shift; [exact Hd | lia].
Qed.

Lemma of_Z_1 : Num.of_Z 1 = pow2 0.
Proof. reflexivity. Qed.

(** The reciprocal of [2^k] is [2^-k]. *)
Lemma div_pow2 k :
  0 ≤ k ≤ 1021 → Num.div (Num.of_Z 1) (pow2 k) = pow2 (- k).
Proof.
  intros Hk. rewrite of_Z_1. unfold Num.div, SFdiv, pow2, SFdiv_core_binary.
  change (Zdigits2 (Z.pos 4503599627370496)) with 53.
  rewrite fexp_eq.
  replace (Z.min (Z.max (53 + (0 - 52) - (53 + (k - 52)) - 53) (-1074)) (0 - 52 - (k - 52)))
    with (- k - 53) by lia.
  replace (0 - 52 - (k - 52) - (- k - 53)) with 53 by lia.
  change (Z.div_eucl (Z.shiftl (Z.pos 4503599627370496) 53) (Z.pos 4503599627370496))
    with (9007199254740992, 0).
  cbn [new_location Z.even new_location_even Z.eqb xorb].
  replace (- k - 53) with (- k - 52 - Z.pos 1) by lia.
  apply (binary_round_aux_shift false 4503599627370496 1 (- k - 52)); [reflexivity | lia].
Qed.

Lemma dyadic_pow2 k : -1022 ≤ k ≤ 1023 → Num.dyadic 1 k = pow2 k.
Proof.
  intros Hk. unfold Num.dyadic, binary_normalize, binary_round, shl_align.
  cbn [digits2_pos]. rewrite fexp_eq.
  replace (Z.max (1 + k - 53) (-1074)) with (k - 52) by lia.
  replace (k - 52 - k) with (-52) by lia.
  change (Pos.iter xO 1%positive 52) with 4503599627370496%positive.
  apply binary_round_aux_canonical; [reflexivity | lia].
Qed.

(** The number of binary digits bounds the value. *)
Lemma digits2_pos_bounds p :
  2 ^ (Z.pos (digits2_pos p) - 1) ≤ Z.pos p < 2 ^ Z.pos (digits2_pos p).
Proof.
  induction p as [p IH|p IH|]; cbn [digits2_pos].
  - rewrite Pos2Z.inj_succ.
    replace (Z.succ (Z.pos (digits2_pos p)) - 1) with (Z.succ (Z.pos (digits2_pos p) - 1)) by lia.
    rewrite !Z.pow_succ_r by lia. lia.
  - rewrite Pos2Z.inj_succ.
    replace (Z.succ (Z.pos (digits2_pos p)) - 1) with (Z.succ (Z.pos (digits2_pos p) - 1)) by lia.
    rewrite !Z.pow_succ_r by lia. lia.
  - simpl. lia.
Qed.

Lemma digits2_pos_le_53 p : Z.pos p < 2 ^ 53 → Z.pos (digits2_pos p) ≤ 53.
Proof.
  intros Hp. destruct (digits2_pos_bounds p) as [Hlo _].
  destruct (Z.le_gt_cases (Z.pos (digits2_pos p)) 53) as [H|H]; [exact H|].
  assert (2 ^ 53 ≤ 2 ^ (Z.pos (digits2_pos p) - 1)) by (apply Z.pow_le_mono_r; lia).
  lia.
Qed.

(** The integer literal [p] below [2^53]: a mantissa of 53 bits holding [p]
    shifted left. *)
Lemma binary_round_integer s p :
  Z.pos p < 2 ^ 53 ->
  ∃ m e, binary_round Num.prec Num.emax s p 0 = S754_finite s m e ∧
         -52 ≤ e ≤ 0 ∧ Z.pos m = Z.pos p * 2 ^ (- e) ∧ Z.pos (digits2_pos m) = 53.
Proof.
  intros Hp. pose proof (digits2_pos_le_53 p Hp) as Hd.
  unfold binary_round, shl_align. rewrite fexp_eq.
  replace (Z.max (Z.pos (digits2_pos p) + 0 - 53) (-1074))
    with (Z.pos (digits2_pos p) - 53) by lia.
  destruct (Z.pos (digits2_pos p) - 53 - 0) as [|q|q] eqn:Hq; try lia.
  - exists p, 0. split; [apply binary_round_aux_canonical; lia|].
    split; [lia|]. split; lia.
  - exists (Pos.iter xO p q), (- Z.pos q).
    assert (Z.pos (digits2_pos (Pos.iter xO p q)) = 53) as Hd'
      by (rewrite digits2_pos_iter; lia).
    replace (Z.pos (digits2_pos p) - 53) with (- Z.pos q) by lia.
    split; [apply binary_round_aux_canonical; [exact Hd'|lia]|].
    split; [lia|]. split; [|exact Hd'].
    rewrite pos_iter_xO, Z.opp_involutive. reflexivity.
Qed.

Lemma to_safe_integer_finite s m e z :
  -52 ≤ e ≤ 0 → Z.pos m = z * 2 ^ (- e) → 0 < z < 2 ^ 53 ->
  Num.to_safe_integer (S754_finite s m e) = Some (if s then - z else z).
Proof.
  intros He Hm Hz. unfold Num.to_safe_integer, Num.truncate, Num.MAX_SAFE_INTEGER.
  assert (0 < 2 ^ (- e)) as Hpow by (apply Z.pow_pos_nonneg; lia).
  assert (∀ b : bool, (Z.abs (if b then - z else z) <=? 2 ^ 53 - 1) = true) as Habs
    by (intros []; apply Z.leb_le; lia).
  destruct (Z.leb_spec 0 e) as [He0|He0].
  - assert (e = 0) as -> by lia.
    change (- 0) with 0 in Hm. rewrite Z.pow_0_r, Z.mul_1_r in Hm.
    rewrite Hm, Z.pow_0_r, Z.mul_1_r, Habs. reflexivity.
  - rewrite Hm, Z.div_mul, Z.mod_mul, Habs by lia. reflexivity.
Qed.

Lemma holds_integer_safe f z :
  holds_integer f z → Num.to_safe_integer f = Some z.
Proof.
  destruct f as [s| | |s m e]; try contradiction.
  - intros ->. reflexivity.
  - intros (He & Hd & Hm & Hs & Hz).
    pose proof (digits2_pos_bounds m) as Hb. rewrite Hd in Hb.
    assert (0 < 2 ^ (- e)) as Hpow by (apply Z.pow_pos_nonneg; lia).
    assert (Z.abs z < 2 ^ 53) as Habs by nia.
    rewrite (to_safe_integer_finite s m e (Z.abs z)) by lia.
    subst s. destruct (Z.ltb_spec z 0); f_equal; lia.
Qed.



(** Rounding the integer [q * 2^j] written at exponent [-j] is rounding [q]. *)
Lemma binary_round_scaled s q j :
  Z.pos q < 2 ^ 53 →
  binary_round Num.prec Num.emax s (Pos.iter xO q j) (- Z.pos j) =
  binary_round Num.prec Num.emax s q 0.
Proof.
  intros Hq. pose proof (digits2_pos_le_53 q Hq) as Hd.
  destruct (binary_round_integer s q Hq) as (m & e & Hr & He & Hm & Hdm).
  rewrite Hr. unfold binary_round, shl_align.
  rewrite fexp_eq, digits2_pos_iter.
  replace (Z.max (Z.pos (digits2_pos q) + Z.pos j + - Z.pos j - 53) (-1074))
    with (Z.pos (digits2_pos q) - 53) by lia.
  assert (e = Z.pos (digits2_pos q) - 53) as He'.
  { pose proof (digits2_pos_bounds q) as Hbq. pose proof (digits2_pos_bounds m) as Hbm.
    rewrite Hdm, Hm in Hbm.
    assert (0 < 2 ^ (- e)) by (apply Z.pow_pos_nonneg; lia).
    destruct (Z.lt_trichotomy e (Z.pos (digits2_pos q) - 53)) as [Hlt|[Heq|Hgt]]; [|exact Heq|].
    - exfalso.
      assert (2 ^ (Z.pos (digits2_pos q) - 1) * 2 ^ (- e) ≤ Z.pos q * 2 ^ (- e)) by nia.
      rewrite <- Z.pow_add_r in H0 by lia.
      assert (2 ^ 53 ≤ 2 ^ (Z.pos (digits2_pos q) - 1 + - e)) by (apply Z.pow_le_mono_r; lia).
      lia.
    - exfalso.
      assert (Z.pos q * 2 ^ (- e) < 2 ^ Z.pos (digits2_pos q) * 2 ^ (- e)) by nia.
      rewrite <- Z.pow_add_r in H0 by lia.
      assert (2 ^ (Z.pos (digits2_pos q) + - e) ≤ 2 ^ 52) by (apply Z.pow_le_mono_r; lia).
      lia. }
  destruct (Z.pos (digits2_pos q) - 53 - - Z.pos j) as [|d|d] eqn:Hdj.
  - (* the scaled mantissa already has 53 bits *)
    assert (m = Pos.iter xO q j) as ->.
    { apply Pos2Z.inj. rewrite Hm, pos_iter_xO. f_equal. f_equal. lia. }
    replace (- Z.pos j) with e by lia.
    apply binary_round_aux_canonical; [exact Hdm|lia].
  - (* too many bits: rounding shifts right, exactly *)
    assert (j = (d + Z.to_pos (- e))%positive ∨ (e = 0 ∧ j = d)) as Hj by lia.
    destruct Hj as [Hj|[He0 Hj]].
    + assert (m = Pos.iter xO q (Z.to_pos (- e))) as Hm'.
      { apply Pos2Z.inj. rewrite Hm, pos_iter_xO. f_equal. f_equal. lia. }
      rewrite Hj, Pos.iter_add, <- Hm'.
      replace (- Z.pos (d + Z.to_pos (- e))) with (e - Z.pos d) by lia.
      apply binary_round_aux_shift; [exact Hdm|lia].
    + subst j. assert (m = q) as -> by (apply Pos2Z.inj; rewrite Hm, He0; simpl; lia).
      replace (- Z.pos d) with (e - Z.pos d) by lia.
      apply binary_round_aux_shift; [exact Hdm|lia].
  - (* too few bits: the mantissa is shifted left *)
    assert (m = Pos.iter xO (Pos.iter xO q j) d) as Hm'.
    { apply Pos2Z.inj. rewrite Hm, !pos_iter_xO, <- Z.mul_assoc, <- Z.pow_add_r by lia.
      f_equal. f_equal. lia. }
    rewrite <- Hm'. rewrite <- He'.
    apply binary_round_aux_canonical; [exact Hdm|lia].
Qed.

Lemma of_Z_holds z : Z.abs z < 2 ^ 53 → holds_integer (Num.of_Z z) z.
Proof.
  intros Hz. unfold Num.of_Z, Num.dyadic, binary_normalize. destruct z as [|p|p].
  - reflexivity.
  - destruct (binary_round_integer false p) as (m & e & -> & He & Hm & Hd); [lia|].
    simpl. repeat split; try lia; try exact Hm.
  - destruct (binary_round_integer true p) as (m & e & -> & He & Hm & Hd); [lia|].
    simpl. repeat split; try lia; try exact Hm.
Qed.

(** The integer [z * 2^j] written at exponent [-j] normalizes to [z]. *)
Lemma binary_normalize_scaled z j :
  Z.abs z < 2 ^ 53 → 0 ≤ j →
  binary_normalize Num.prec Num.emax (z * 2 ^ j) (- j) false = Num.of_Z z.
Proof.
  intros Hz Hj. unfold Num.of_Z, Num.dyadic, binary_normalize.
  assert (0 < 2 ^ j) as Hpow by (apply Z.pow_pos_nonneg; lia).
  destruct j as [|j|j]; [|clear Hj|lia].
  - rewrite Z.pow_0_r, Z.mul_1_r. reflexivity.
  - destruct z as [|p|p].
    + reflexivity.
    + replace (Z.pos p * 2 ^ Z.pos j) with (Z.pos (Pos.iter xO p j))
        by (rewrite pos_iter_xO; reflexivity).
      apply binary_round_scaled. lia.
    + replace (Z.neg p * 2 ^ Z.pos j) with (Z.neg (Pos.iter xO p j))
        by (rewrite <- !Pos2Z.opp_pos, pos_iter_xO; lia).
      apply binary_round_scaled. lia.
Qed.

(** The mantissa of an integer, aligned to a lower exponent. *)
Lemma shl_align_integer m e z ez :
  Z.pos m = Z.abs z * 2 ^ (- e) → ez ≤ e ≤ 0 →
  Z.pos (fst (shl_align m e ez)) = Z.abs z * 2 ^ (- ez).
Proof.
  intros Hm He. unfold shl_align.
  destruct (ez - e) as [|d|d] eqn:Hd; simpl fst.
  - replace ez with e by lia. exact Hm.
  - lia.
  - rewrite pos_iter_xO, Hm, <- Z.mul_assoc, <- Z.pow_add_r by lia.
    f_equal. f_equal. lia.
Qed.

Lemma cond_Zopp_abs z : cond_Zopp (z <? 0) (Z.abs z) = z.
Proof. unfold cond_Zopp. destruct (Z.ltb_spec z 0); lia. Qed.

(** Subtracting and adding integers is exact while the result stays below
    [2^53] in magnitude. *)
Lemma sub_holds f g a b :
  holds_integer f a → holds_integer g b → Z.abs (a - b) < 2 ^ 53 →
  holds_integer (Num.sub f g) (a - b).
Proof.
  intros Hf Hg Hab.
  destruct f as [sf| | |sf mf ef], g as [sg| | |sg mg eg]; try contradiction.
  - simpl in Hf, Hg. subst a b. destruct sf, sg; reflexivity.
  - simpl in Hf. subst a. destruct Hg as (He & Hd & Hm & Hs & Hz).
    unfold Num.sub, SFsub, holds_integer.
    split; [lia|]. split; [exact Hd|]. split; [rewrite Hm; f_equal; lia|]. split; [|lia].
    subst sg. destruct (Z.ltb_spec b 0), (Z.ltb_spec (0 - b) 0); try reflexivity; lia.
  - simpl in Hg. subst b. replace (a - 0) with a by lia. exact Hf.
  - destruct Hf as (Hef & Hdf & Hmf & Hsf & Hzf), Hg as (Heg & Hdg & Hmg & Hsg & Hzg).
    unfold Num.sub, SFsub.
    rewrite (shl_align_integer mf ef a), (shl_align_integer mg eg b) by (assumption || lia).
    rewrite Hsf, Hsg.
    replace (cond_Zopp (a <? 0) (Z.abs a * 2 ^ (- Z.min ef eg)))
      with (a * 2 ^ (- Z.min ef eg))
      by (rewrite <- (cond_Zopp_abs a) at 1; unfold cond_Zopp; destruct (a <? 0); lia).
    replace (cond_Zopp (b <? 0) (Z.abs b * 2 ^ (- Z.min ef eg)))
      with (b * 2 ^ (- Z.min ef eg))
      by (rewrite <- (cond_Zopp_abs b) at 1; unfold cond_Zopp; destruct (b <? 0); lia).
    rewrite <- Z.mul_sub_distr_r.
    replace (Z.min ef eg) with (- (- Z.min ef eg)) at 2 by lia.
    rewrite binary_normalize_scaled by lia.
    apply of_Z_holds, Hab.
Qed.

Lemma add_holds f g a b :
  holds_integer f a → holds_integer g b → Z.abs (a + b) < 2 ^ 53 →
  holds_integer (Num.add f g) (a + b).
Proof.
  intros Hf Hg Hab.
  destruct f as [sf| | |sf mf ef], g as [sg| | |sg mg eg]; try contradiction.
  - simpl in Hf, Hg. subst a b. destruct sf, sg; reflexivity.
  - simpl in Hf. subst a. exact Hg.
  - simpl in Hg. subst b. replace (a + 0) with a by lia. exact Hf.
  - destruct Hf as (Hef & Hdf & Hmf & Hsf & Hzf), Hg as (Heg & Hdg & Hmg & Hsg & Hzg).
    unfold Num.add, SFadd.
    rewrite (shl_align_integer mf ef a), (shl_align_integer mg eg b) by (assumption || lia).
    rewrite Hsf, Hsg.
    replace (cond_Zopp (a <? 0) (Z.abs a * 2 ^ (- Z.min ef eg)))
      with (a * 2 ^ (- Z.min ef eg))
      by (rewrite <- (cond_Zopp_abs a) at 1; unfold cond_Zopp; destruct (a <? 0); lia).
    replace (cond_Zopp (b <? 0) (Z.abs b * 2 ^ (- Z.min ef eg)))
      with (b * 2 ^ (- Z.min ef eg))
      by (rewrite <- (cond_Zopp_abs b) at 1; unfold cond_Zopp; destruct (b <? 0); lia).
    rewrite <- Z.mul_add_distr_r.
    replace (Z.min ef eg) with (- (- Z.min ef eg)) at 2 by lia.
    rewrite binary_normalize_scaled by lia.
    apply of_Z_holds, Hab.
Qed.

(** Two mantissas of 53 bits compare as the integers they hold. *)
Lemma compare_magnitude m1 e1 m2 e2 a b :
  Z.pos (digits2_pos m1) = 53 → Z.pos (digits2_pos m2) = 53 →
  -52 ≤ e1 ≤ 0 → -52 ≤ e2 ≤ 0 →
  Z.pos m1 = a * 2 ^ (- e1) → Z.pos m2 = b * 2 ^ (- e2) →
  match e1 ?= e2 with
  | Lt => Lt
  | Gt => Gt
  | Eq => Pos.compare_cont Eq m1 m2
  end = (a ?= b).
Proof.
  intros Hd1 Hd2 He1 He2 Hm1 Hm2.
  pose proof (digits2_pos_bounds m1) as Hb1. rewrite Hd1 in Hb1.
  pose proof (digits2_pos_bounds m2) as Hb2. rewrite Hd2 in Hb2.
  change (2 ^ (53 - 1)) with (2 ^ 52) in *.
  assert (0 < 2 ^ (- e1)) as Hp1 by (apply Z.pow_pos_nonneg; lia).
  assert (0 < 2 ^ (- e2)) as Hp2 by (apply Z.pow_pos_nonneg; lia).
  destruct (Z.compare_spec e1 e2) as [Heq|Hlt|Hgt].
  - subst e2. change (Pos.compare_cont Eq m1 m2) with (Z.pos m1 ?= Z.pos m2).
    rewrite Hm1, Hm2.
    destruct (Z.compare_spec a b) as [->|H|H].
    + apply Z.compare_refl.
    + apply Z.compare_lt_iff. nia.
    + apply Z.compare_gt_iff. nia.
  - symmetry. apply Z.compare_lt_iff.
    assert (2 ^ (- e1) = 2 ^ (- e2) * 2 ^ (e2 - e1)) as Hsplit
      by (rewrite <- Z.pow_add_r by lia; f_equal; lia).
    assert (2 ≤ 2 ^ (e2 - e1)) by (change 2 with (2 ^ 1) at 1; apply Z.pow_le_mono_r; lia).
    nia.
  - symmetry. apply Z.compare_gt_iff.
    assert (2 ^ (- e2) = 2 ^ (- e1) * 2 ^ (e1 - e2)) as Hsplit
      by (rewrite <- Z.pow_add_r by lia; f_equal; lia).
    assert (2 ≤ 2 ^ (e1 - e2)) by (change 2 with (2 ^ 1) at 1; apply Z.pow_le_mono_r; lia).
    nia.
Qed.

(** The comparison of two numbers that hold integers is the comparison of the
    integers. *)
Lemma leb_holds f g a b :
  holds_integer f a → holds_integer g b → Num.leb f g = (a <=? b).
Proof.
  intros Hf Hg.
  destruct f as [sf| | |sf mf ef], g as [sg| | |sg mg eg]; try contradiction.
  - simpl in Hf, Hg. subst a b. reflexivity.
  - simpl in Hf. subst a. destruct Hg as (_ & _ & _ & Hs & Hz).
    unfold Num.leb, SFleb, SFcompare. subst sg.
    destruct (Z.ltb_spec b 0), (Z.leb_spec 0 b); try reflexivity; lia.
  - simpl in Hg. subst b. destruct Hf as (_ & _ & _ & Hs & Hz).
    unfold Num.leb, SFleb, SFcompare. subst sf.
    destruct (Z.ltb_spec a 0), (Z.leb_spec a 0); try reflexivity; lia.
  - destruct Hf as (Hef & Hdf & Hmf & Hsf & Hzf), Hg as (Heg & Hdg & Hmg & Hsg & Hzg).
    unfold Num.leb, SFleb, SFcompare. subst sf sg.
    pose proof (compare_magnitude mf ef mg eg (Z.abs a) (Z.abs b)
                  Hdf Hdg Hef Heg Hmf Hmg) as Hmag.
    destruct (Z.compare_spec (Z.abs a) (Z.abs b)) as [Hc|Hc|Hc];
      destruct (Z.ltb_spec a 0) as [Ha|Ha], (Z.ltb_spec b 0) as [Hb|Hb];
      destruct (Z.leb_spec a b) as [Hab|Hab]; try lia;
      destruct (ef ?= eg); try discriminate Hmag; try rewrite Hmag; reflexivity.
Qed.

Lemma holds_integer_bound f z : holds_integer f z → Z.abs z < 2 ^ 53.
Proof.
  destruct f as [s| | |s m e]; try contradiction.
  - intros ->. reflexivity.
  - intros (He & Hd & Hm & _).
    pose proof (digits2_pos_bounds m) as Hb. rewrite Hd in Hb.
    assert (0 < 2 ^ (- e)) as Hpow by (apply Z.pow_pos_nonneg; lia).
    nia.
Qed.

(** The values that [counter_values] gives are those the loop takes step by
    step. *)
Lemma counter_values_is_the_loop lo hi a b :
  holds_integer lo a → holds_integer hi b → Z.abs b < 2 ^ 53 - 1 →
  DSH.counter_values lo hi = Some (seqZ a (b - a + 1)) ∧
  ∃ cs, DSH.counter_steps (S (Z.to_nat (b - a + 1))) lo hi = Some cs ∧
        Forall2 holds_integer cs (seqZ a (b - a + 1)).
Proof.
  intros Hlo Hhi Hb. split.
  - unfold DSH.counter_values. rewrite (leb_holds lo hi a b Hlo Hhi).
    rewrite (holds_integer_safe lo a Hlo), (holds_integer_safe hi b Hhi).
    destruct (Z.leb_spec a b) as [Hab|Hab]; simpl; [reflexivity|].
    unfold seqZ. replace (Z.to_nat (b - a + 1)) with 0%nat by lia. reflexivity.
  - remember (Z.to_nat (b - a + 1)) as n eqn:Hn.
    revert lo a Hlo Hn. induction n as [|n IH]; intros lo a Hlo Hn.
    + assert (b < a) as Hab by lia.
      cbn [DSH.counter_steps]. rewrite (leb_holds lo hi a b Hlo Hhi).
      destruct (Z.leb_spec a b); [lia|].
      exists []. split; [reflexivity|].
      unfold seqZ. replace (Z.to_nat (b - a + 1)) with 0%nat by lia. constructor.
    + assert (a ≤ b) as Hab by lia.
      change (DSH.counter_steps (S (S n)) lo hi) with
        (if Num.leb lo hi
         then cs ← DSH.counter_steps (S n) (Num.add lo (Num.of_Z 1)) hi; Some (lo :: cs)
         else Some []).
      rewrite (leb_holds lo hi a b Hlo Hhi).
      destruct (Z.leb_spec a b); [|lia].
      pose proof (holds_integer_bound lo a Hlo) as Ha.
      assert (holds_integer (Num.add lo (Num.of_Z 1)) (a + 1)) as Hnext.
      { apply add_holds; [exact Hlo|apply of_Z_holds; lia|lia]. }
      destruct (IH (Num.add lo (Num.of_Z 1)) (a + 1) Hnext ltac:(lia))
        as (cs & Hcs & Hall).
      rewrite Hcs. exists (lo :: cs). split; [reflexivity|].
      replace (b - a + 1) with (Z.succ (b - (a + 1) + 1)) by lia.
      rewrite seqZ_cons by lia.
      replace (Z.pred (Z.succ (b - (a + 1) + 1))) with (b - (a + 1) + 1) by lia.
      replace (Z.succ a) with (a + 1) by lia.
      constructor; assumption.
Qed.

Lemma ceil_div m d :
  0 < d → 0 ≤ m ->
  (m + d - 1) / d = if m mod d =? 0 then m / d else m / d + 1.
Proof.
  intros Hd Hm. pose proof (Z.div_mod m d ltac:(lia)) as Hdm.
  pose proof (Z.mod_pos_bound m d Hd) as Hr.
  destruct (Z.eqb_spec (m mod d) 0) as [H0|H0].
  - symmetry. apply (Z.div_unique _ _ _ (d - 1)); lia.
  - symmetry. apply (Z.div_unique _ _ _ (m mod d - 1)); lia.
Qed.

Lemma cell_coord_bound k f :
  0 ≤ k → regular k f = true → Z.abs (cell_coord k f) ≤ 2 ^ 52.
Proof.
  intros Hk Hreg. destruct f as [s| | |s m e]; try (discriminate Hreg); [simpl; lia|].
  unfold regular in Hreg. apply andb_prop in Hreg as [Hreg He0].
  apply andb_prop in Hreg as [Hd He1].
  apply Z.eqb_eq in Hd. apply Z.leb_le in He0, He1.
  pose proof (digits2_pos_bounds m) as Hm. rewrite Hd in Hm.
  unfold cell_coord.
  assert (2 ≤ 2 ^ (k - e)) as Hpow.
  { change 2 with (2 ^ 1) at 1. apply Z.pow_le_mono_r; lia. }
  assert (0 ≤ Z.pos m / 2 ^ (k - e) ≤ Z.pos m / 2) as Hq.
  { split; [apply Z.div_pos; lia|]. apply Z.div_le_compat_l; lia. }
  assert (Z.pos m / 2 < 2 ^ 52) by (apply Z.div_lt_upper_bound; lia).
  destruct s; [|lia].
  rewrite ceil_div by lia. destruct (Z.pos m mod 2 ^ (k - e) =? 0); lia.
Qed.

Lemma floor_mul_pow2_holds k f :
  0 ≤ k → regular k f = true →
  holds_integer (Num.floor (Num.mul f (pow2 (- k)))) (cell_coord k f).
Proof.
  intros Hk Hreg. pose proof (cell_coord_bound k f Hk Hreg) as Hbound.
  destruct f as [s| | |s m e]; try (discriminate Hreg).
  - reflexivity.
  - unfold regular in Hreg. apply andb_prop in Hreg as [Hreg He0].
    apply andb_prop in Hreg as [Hd He1].
    apply Z.eqb_eq in Hd. apply Z.leb_le in He0, He1.
    rewrite mul_pow2 by lia. unfold Num.floor.
    destruct (Z.leb_spec 0 (e - k)) as [Hek|Hek]; [lia|].
    replace (- (e - k)) with (k - e) by lia.
    unfold cell_coord in Hbound |- *.
    assert (0 < 2 ^ (k - e)) as Hpow by (apply Z.pow_pos_nonneg; lia).
    destruct s.
    + rewrite ceil_div in Hbound |- * by lia. apply of_Z_holds. lia.
    + apply of_Z_holds. lia.
Qed.








(** ** The cell size and the number of buckets *)

Lemma size_list_to_set_le (l : list key) :
  (size (list_to_set l : gset key) ≤ length l)%nat.
Proof.
  induction l as [|a l IH].
  - rewrite list_to_set_nil, size_empty. simpl. lia.
  - rewrite list_to_set_cons, size_union_alt, size_singleton. simpl.
    assert (size ((list_to_set l : gset key) ∖ {[a]}) ≤ size (list_to_set l : gset key))%nat
      by (apply subseteq_size; set_solver).
    lia.
Qed.

(** The keys follow the cells: fewer cells, fewer keys, and never more keys
    than cells. *)
Lemma keys_follow_cells
    (t1 t2 : DynamicSpatialHash) (o : JSObject) (c1 c2 : list (Z * Z)) :
  DSH.covering_cells t1 o = Some c1 →
  DSH.covering_cells t2 o = Some c2 →
  c2 ⊆ c1 →
  ∃ K1 K2, DSH.getHashFromObject t1 o = Some K1 ∧
           DSH.getHashFromObject t2 o = Some K2 ∧
           K2 ⊆ K1 ∧ (size K2 ≤ size K1)%nat ∧
           (size K1 ≤ length c1)%nat ∧ (size K2 ≤ length c2)%nat.
Proof.
  intros Hc1 Hc2 Hsub. unfold DSH.getHashFromObject. rewrite Hc1, Hc2. simpl.
  eexists _, _. split; [reflexivity|]. split; [reflexivity|].
  assert ((list_to_set (DSH.hash_cell <$> c2) : gset key) ⊆ list_to_set (DSH.hash_cell <$> c1)) as HK.
  { intros k. rewrite !elem_of_list_to_set, !list_elem_of_fmap.
    intros (c & -> & Hc). exists c. split; [reflexivity|]. apply Hsub, Hc. }
  split; [exact HK|]. split; [apply subseteq_size, HK|].
  split.
  - etransitivity; [apply size_list_to_set_le|]. rewrite length_fmap. reflexivity.
  - etransitivity; [apply size_list_to_set_le|]. rewrite length_fmap. reflexivity.
Qed.

Lemma constructor_pow2 k w :
  0 ≤ k ≤ 1021 →
  DSH.constructor (VNumber (Num.dyadic 1 k)) ∅ = Return tt w →
  this w = pow2_index k 0 ∅.
Proof.
  intros Hk. unfold DSH.constructor, DSH.set_cellSize.
  rewrite dyadic_pow2 by lia.
  change (Num.leb (pow2 k) (Num.of_Z 0)) with false. cbv iota.
  rewrite div_pow2 by lia. intros [= <-]. reflexivity.
Qed.




(** * Further properties of the methods *)

(** ** What [query] never returns *)

Lemma membership_inv (w : world) (o : objref) (M : gset key) :
  membership w o = Some M → ∃ obj, heap w !! o = Some obj ∧ __spatialHashes obj = Some M.
Proof.
  unfold membership. destruct (heap w !! o) as [obj|]; [|discriminate].
  simpl. eauto.
Qed.

Lemma query_returns_inv (o : objref) (w w' : world) (R : gset objref) :
  DSH.query o w = Return R w' →
  w' = w ∧ ∃ M, membership w o = Some M ∧
  ∀ b, b ∈ R ↔ b ≠ o ∧ ∃ h bucket, h ∈ M ∧ table w !! h = Some bucket ∧ b ∈ bucket.
Proof.
  intros Hq. pose proof Hq as Hq'. unfold DSH.query in Hq'.
  destruct (heap w !! o) as [obj|] eqn:Hobj; [|discriminate].
  destruct (__spatialHashes obj) as [M|] eqn:Hm; [|discriminate].
  assert (membership w o = Some M) as HM by (unfold membership; rewrite Hobj; exact Hm).
  destruct (query_returns o w M HM) as (R0 & HR0 & Hin).
  rewrite HR0 in Hq. injection Hq as <- <-.
  split; [reflexivity|]. exists M. split; [exact HM|exact Hin].
Qed.

(** X1: [query] on an object without a membership set throws a TypeError; on a
    tracked object it returns, changes nothing, and its result holds objects
    of the buckets of the membership set only, never the object itself. *)
Theorem query_outcome (o : objref) (w : world) :
  match membership w o with
  | None => DSH.query o w = Throw TypeError w
  | Some M =>
      ∃ R, DSH.query o w = Return R w ∧ (o ∉ R) ∧
           (∀ b, b ∈ R → ∃ h, h ∈ M ∧ b ∈ bucket_at w h)
  end.
Proof.
  destruct (membership w o) as [M|] eqn:HM.
  - destruct (query_returns o w M HM) as (R & HR & Hin).
    exists R. split; [exact HR|]. split.
    + intros Ho. apply Hin in Ho. destruct Ho as [Hne _]. contradiction.
    + intros b Hb. apply Hin in Hb. destruct Hb as (_ & h & bucket & Hh & Hbk & Hbin).
      exists h. split; [exact Hh|]. unfold bucket_at, DSH.get. fold (table w).
      rewrite Hbk. exact Hbin.
  - unfold membership in HM. unfold DSH.query.
    destruct (heap w !! o) as [obj|]; [|reflexivity].
    simpl in HM. rewrite HM. reflexivity.
Qed.

(** X2: Where I1 and I2 hold, [query] is symmetric: [b] is in the result for [a]
    exactly when [a] is in the result for [b]. *)
Theorem query_symmetric (a b : objref) (w wa wb : world) (Ra Rb : gset objref) :
  I1 w → I2 w →
  DSH.query a w = Return Ra wa → DSH.query b w = Return Rb wb →
  (b ∈ Ra ↔ a ∈ Rb).
Proof.
  intros H1 H2 Hqa Hqb.
  apply query_returns_inv in Hqa as (_ & Ma & HMa & Hina).
  apply query_returns_inv in Hqb as (_ & Mb & HMb & Hinb).
  assert (∀ p q Mp Mq (Rp Rq : gset objref),
            membership w p = Some Mp → membership w q = Some Mq →
            (∀ c, c ∈ Rp ↔ c ≠ p ∧ ∃ h bucket, h ∈ Mp ∧ table w !! h = Some bucket ∧ c ∈ bucket) →
            (∀ c, c ∈ Rq ↔ c ≠ q ∧ ∃ h bucket, h ∈ Mq ∧ table w !! h = Some bucket ∧ c ∈ bucket) →
            q ∈ Rp → p ∈ Rq) as Hhalf.
  { intros p q Mp Mq Rp Rq HMp HMq Hp Hq Hin.
    apply Hp in Hin as (Hne & h & bucket & Hh & Hbk & Hqin).
    apply Hq. split; [congruence|].
    destruct (H2 h bucket q Hbk Hqin) as (Mq' & HMq' & Hhq).
    rewrite HMq in HMq'. injection HMq' as <-.
    destruct (H1 p Mp h HMp Hh) as (bucket' & Hbk' & Hpin).
    exists h, bucket'. auto. }
  split; [apply (Hhalf a b Ma Mb) | apply (Hhalf b a Mb Ma)]; assumption.
Qed.

Lemma query_symmetric_witness :
  DSH.query objA (after scenario_adds) = Return {[objB]} (after scenario_adds) ∧
  DSH.query objB (after scenario_adds) = Return {[objA]} (after scenario_adds) ∧
  (objB ∈ ({[objB]} : gset objref) ↔ objA ∈ ({[objA]} : gset objref)).
Proof.
  assert (invariants (after scenario_adds)) as (H1 & H2 & _).
  { apply after_invariants. vm_compute. reflexivity. }
  split; [vm_compute; reflexivity|]. split; [vm_compute; reflexivity|].
  apply (query_symmetric objA objB (after scenario_adds) (after scenario_adds)
           (after scenario_adds) {[objB]} {[objA]} H1 H2).
  - vm_compute. reflexivity.
  - vm_compute. reflexivity.
Defined.

(** ** What [add] and [delete] leave behind *)

Lemma add_returns_inv (o : objref) (w w' : world) (r : ret) :
  DSH.add o w = Return r w' →
  r = This ∧ ∃ obj M,
    heap w !! o = Some obj ∧ DSH.getHashFromObject (this w) obj = Some M ∧
    this w' = DSH.with_table (table w') (this w) ∧
    (∀ h, table w' !! h =
          if decide (h ∈ M) then Some (default ∅ (table w !! h) ∪ {[o]})
          else table w !! h) ∧
    (∀ o', membership w' o' = if decide (o' = o) then Some M else membership w o') ∧
    (∀ o', o' ≠ o → heap w' !! o' = heap w !! o') ∧
    heap w' !! o = Some (DSH.with_hashes (Some M) obj).
Proof.
  intros Hadd. pose proof Hadd as Hadd'. unfold DSH.add in Hadd'.
  destruct (heap w !! o) as [obj|] eqn:Hobj; [|discriminate].
  destruct (DSH.getHashFromObject (this w) obj) as [M|] eqn:Hcov; [|discriminate].
  clear Hadd'.
  destruct (add_returns o w obj M Hobj Hcov) as (w1 & Hw1 & Hrest).
  rewrite Hw1 in Hadd. injection Hadd as <- <-.
  split; [reflexivity|]. exists obj, M. split; [reflexivity|]. split; [exact Hcov|].
  exact Hrest.
Qed.

Lemma delete_returns_inv (o : objref) (w w' : world) :
  DSH.delete o w = Return This w' →
  ∃ obj M,
    heap w !! o = Some obj ∧ __spatialHashes obj = Some M ∧
    this w' = DSH.with_table (table w') (this w) ∧
    (∀ h, table w' !! h =
          if decide (h ∈ M) then without o (table w !! h) else table w !! h) ∧
    (∀ o', membership w' o' = if decide (o' = o) then None else membership w o') ∧
    (∀ o', o' ≠ o → heap w' !! o' = heap w !! o') ∧
    heap w' !! o = Some (DSH.with_hashes None obj).
Proof.
  intros Hdel. pose proof Hdel as Hdel'. unfold DSH.delete in Hdel'.
  destruct (heap w !! o) as [obj|] eqn:Hobj; [|discriminate].
  destruct (__spatialHashes obj) as [M|] eqn:Hm; [|discriminate].
  clear Hdel'.
  destruct (delete_returns o w obj M Hobj Hm) as (w1 & Hw1 & Hrest).
  rewrite Hw1 in Hdel. injection Hdel as <-.
  exists obj, M. split; [reflexivity|]. split; [exact Hm|]. exact Hrest.
Qed.

Lemma elem_of_default_without (o o' : objref) (b : option (gset objref)) :
  o' ∈ default ∅ (without o b) ↔ o' ≠ o ∧ o' ∈ default ∅ b.
Proof.
  unfold without. destruct b as [b0|]; simpl; [|set_solver].
  case_decide as He; simpl; [|set_solver].
  split; [set_solver|]. intros [Hne Hin].
  assert (o' ∈ b0 ∖ {[o]}) as Hd by set_solver. rewrite He in Hd. exact Hd.
Qed.

(** X3: In whatever state the index is, [delete] on a tracked object returns the
    index, takes the membership set away, leaves the object in none of the
    buckets the set named, drops those it empties, touches no other bucket;
    and a second [delete] is the early exit that changes nothing. *)
Theorem delete_unfiles (o : objref) (w : world) (M : gset key) :
  membership w o = Some M →
  ∃ w', DSH.delete o w = Return This w' ∧
        membership w' o = None ∧
        (∀ h, h ∈ M → (o ∉ bucket_at w' h) ∧ DSH.get h w' ≠ Some ∅) ∧
        (∀ h, h ∈ M → bucket_at w h ⊆ {[o]} → DSH.get h w' = None) ∧
        (∀ h, h ∉ M → DSH.get h w' = DSH.get h w) ∧
        DSH.delete o w' = Return Undefined w'.
Proof.
  intros HM. unfold membership in HM.
  destruct (heap w !! o) as [obj|] eqn:Hobj; [|discriminate]. simpl in HM.
  destruct (delete_returns o w obj M Hobj HM) as (w' & Hdel & _ & Ht & Hmem & _ & Ho).
  exists w'. split; [exact Hdel|].
  split; [rewrite Hmem, decide_True by reflexivity; reflexivity|].
  unfold bucket_at, DSH.get. fold (table w) (table w').
  split; [|split; [|split]].
  - intros h Hh. rewrite Ht, decide_True by exact Hh. split.
    + rewrite elem_of_default_without. intros [Hne _]. contradiction.
    + intros He. apply without_nonempty in He. contradiction.
  - intros h Hh Hsub. rewrite Ht, decide_True by exact Hh.
    unfold without. destruct (table w !! h) as [b|]; [|reflexivity].
    simpl in Hsub. rewrite decide_True by set_solver. reflexivity.
  - intros h Hh. rewrite Ht, decide_False by exact Hh. reflexivity.
  - apply (delete_untracked o w' _ Ho). reflexivity.
Qed.

Lemma delete_unfiles_witness :
  ∃ w', DSH.delete objB (after scenario_adds) = Return This w' ∧
        membership w' objB = None ∧
        (∀ h, h ∈ ({[0]} : gset key) → (objB ∉ bucket_at w' h) ∧ DSH.get h w' ≠ Some ∅) ∧
        (∀ h, h ∈ ({[0]} : gset key) → bucket_at (after scenario_adds) h ⊆ {[objB]} →
              DSH.get h w' = None) ∧
        (∀ h, h ∉ ({[0]} : gset key) → DSH.get h w' = DSH.get h (after scenario_adds)) ∧
        DSH.delete objB w' = Return Undefined w'.
Proof.
  apply (delete_unfiles objB (after scenario_adds) {[0]}).
  vm_compute. reflexivity.
Defined.

(** X4: Where I2 holds, an object that [delete] has taken out is in no bucket at
    all and in no result of [query]. *)
Theorem deleted_is_invisible (o : objref) (w w' : world) :
  I2 w → DSH.delete o w = Return This w' →
  (∀ h, o ∉ bucket_at w' h) ∧
  (∀ a R wa, DSH.query a w' = Return R wa → o ∉ R).
Proof.
  intros H2 Hdel.
  destruct (delete_returns_inv o w w' Hdel) as (obj & M & Hobj & Hm & _ & Ht & _).
  assert (∀ h, o ∉ bucket_at w' h) as Hout.
  { intros h. unfold bucket_at, DSH.get. fold (table w'). rewrite Ht.
    case_decide as Hh.
    - rewrite elem_of_default_without. intros [Hne _]. contradiction.
    - destruct (table w !! h) as [b|] eqn:Hb; simpl; [|set_solver].
      intros Hin. destruct (H2 h b o Hb Hin) as (M' & HM' & Hh').
      unfold membership in HM'. rewrite Hobj in HM'. simpl in HM'.
      rewrite Hm in HM'. injection HM' as <-. contradiction. }
  split; [exact Hout|].
  intros a R wa Hq Hin.
  apply query_returns_inv in Hq as (_ & Ma & _ & Hchar).
  apply Hchar in Hin as (_ & h & bucket & _ & Hb & Hin).
  apply (Hout h). unfold bucket_at, DSH.get. fold (table w'). rewrite Hb. exact Hin.
Qed.

Lemma deleted_is_invisible_witness :
  DSH.delete objB (after scenario_adds) =
    Return This (after (scenario_adds ++ [Delete objB])) ∧
  (∀ h, objB ∉ bucket_at (after (scenario_adds ++ [Delete objB])) h) ∧
  (∀ a R wa, DSH.query a (after (scenario_adds ++ [Delete objB])) = Return R wa → objB ∉ R).
Proof.
  assert (invariants (after scenario_adds)) as (_ & H2 & _).
  { apply after_invariants. vm_compute. reflexivity. }
  assert (DSH.delete objB (after scenario_adds) =
            Return This (after (scenario_adds ++ [Delete objB]))) as Hdel.
  { vm_compute. reflexivity. }
  split; [exact Hdel|].
  apply (deleted_is_invisible objB (after scenario_adds)
           (after (scenario_adds ++ [Delete objB])) H2 Hdel).
Defined.

(** X5: [add] of an untracked object followed by [delete] gives back the state
    before, where I2 and I3 hold. *)
Theorem add_then_delete (o : objref) (w w1 : world) (r : ret) :
  I2 w → I3 w → membership w o = None →
  DSH.add o w = Return r w1 →
  DSH.delete o w1 = Return This w.
Proof.
  intros H2 H3 Hnone Hadd.
  destruct (add_returns_inv o w w1 r Hadd)
    as (_ & obj & M & Hobj & Hcov & Hthis1 & Ht1 & _ & Hother1 & Ho1).
  destruct (delete_returns o w1 _ M Ho1 eq_refl)
    as (w2 & Hdel & Hthis2 & Ht2 & _ & Hother2 & Ho2).
  rewrite Hdel. f_equal. apply world_eq.
  - rewrite Hthis2, Hthis1. reflexivity.
  - rewrite Hthis2, Hthis1. reflexivity.
  - apply map_eq. intros h. rewrite Ht2, Ht1. case_decide as Hh; [|reflexivity].
    assert (o ∉ default ∅ (table w !! h)) as Hout.
    { destruct (table w !! h) as [b|] eqn:Hb; simpl; [|set_solver].
      intros Hin. destruct (H2 h b o Hb Hin) as (M' & HM' & _). congruence. }
    unfold without. destruct (table w !! h) as [b|] eqn:Hb; simpl in *.
    + rewrite decide_False.
      * f_equal. set_solver.
      * destruct (set_choose_L b (H3 h b Hb)) as [o' Ho'].
        intros He. assert (o' ∈ (b ∪ {[o]}) ∖ {[o]}) as Hd by set_solver.
        rewrite He in Hd. set_solver.
    + rewrite decide_True by set_solver. reflexivity.
  - apply map_eq. intros o'. destruct (decide (o' = o)) as [->|Hne].
    + rewrite Ho2, Hobj. f_equal. unfold membership in Hnone.
      rewrite Hobj in Hnone. simpl in Hnone.
      destruct obj. unfold DSH.with_hashes. simpl in *. rewrite Hnone. reflexivity.
    + rewrite Hother2, Hother1 by exact Hne. reflexivity.
Qed.

Lemma add_then_delete_witness :
  membership before_B objB = None ∧
  DSH.add objB before_B = Return This (after scenario_adds) ∧
  DSH.delete objB (after scenario_adds) = Return This before_B.
Proof.
  assert (invariants before_B) as (_ & H2 & H3).
  { apply after_invariants. vm_compute. reflexivity. }
  assert (membership before_B objB = None) as Hnone by (vm_compute; reflexivity).
  assert (DSH.add objB before_B = Return This (after scenario_adds)) as Hadd.
  { vm_compute. reflexivity. }
  split; [exact Hnone|]. split; [exact Hadd|].
  apply (add_then_delete objB before_B (after scenario_adds) This H2 H3 Hnone Hadd).
Defined.

(** X6: A second [add] of an object that has not moved changes nothing, in
    whatever state the first was called. *)
Theorem add_twice (o : objref) (w w1 : world) (r : ret) :
  DSH.add o w = Return r w1 → DSH.add o w1 = Return This w1.
Proof.
  intros Hadd. destruct (add_files o w w1 r Hadd) as (obj & M & Hobj & Hm & Hcov & Hf).
  exact (add_fixed o w1 obj M Hobj Hm Hcov Hf).
Qed.

Lemma add_twice_witness :
  DSH.add objB before_B = Return This (after scenario_adds) ∧
  DSH.add objB (after scenario_adds) = Return This (after scenario_adds).
Proof.
  assert (DSH.add objB before_B = Return This (after scenario_adds)) as Hadd.
  { vm_compute. reflexivity. }
  split; [exact Hadd|].
  apply (add_twice objB before_B (after scenario_adds) This Hadd).
Defined.

(** X7: After [add] or [update] returns, the membership set of the object is
    the covering set of its bounding box under the current configuration,
    and [get] finds the object under every key of it. *)
Theorem refiled_under_covering (o : objref) (w w' : world) (r : ret) :
  DSH.add o w = Return r w' ∨ DSH.update o w = Return r w' →
  ∃ M, membership w' o = Some M ∧ covering w' o = Some M ∧
       ∀ h, h ∈ M → ∃ bucket, DSH.get h w' = Some bucket ∧ o ∈ bucket.
Proof.
  intros Hcall.
  assert (∃ w0 r0, DSH.add o w0 = Return r0 w') as (w0 & r0 & Hadd).
  { destruct Hcall as [Hadd|Hupd]; [eauto|].
    apply update_returns_inv in Hupd as (_ & w1 & _ & Hadd). eauto. }
  destruct (add_files o w0 w' r0 Hadd) as (obj & M & Hobj & Hm & Hcov & Hf).
  exists M. unfold membership, covering. rewrite Hobj. simpl.
  split; [exact Hm|]. split; [exact Hcov|exact Hf].
Qed.

Lemma refiled_under_covering_witness :
  DSH.update objA moved_A = Return Undefined (after (scenario_adds ++ scenario_move)) ∧
  ∃ M, membership (after (scenario_adds ++ scenario_move)) objA = Some M ∧
       covering (after (scenario_adds ++ scenario_move)) objA = Some M ∧
       ∀ h, h ∈ M →
            ∃ bucket, DSH.get h (after (scenario_adds ++ scenario_move)) = Some bucket ∧
                      objA ∈ bucket.
Proof.
  assert (DSH.update objA moved_A =
            Return Undefined (after (scenario_adds ++ scenario_move))) as Hupd.
  { vm_compute. reflexivity. }
  split; [exact Hupd|].
  apply (refiled_under_covering objA moved_A (after (scenario_adds ++ scenario_move))
           Undefined).
  right. exact Hupd.
Defined.

(** X8: After [add] returns, [query] on any other object that is tracked under
    one of the keys of the added object finds it. *)
Theorem added_is_visible (o a : objref) (w w' : world) (r : ret)
    (Ma M : gset key) (h : key) :
  DSH.add o w = Return r w' → a ≠ o →
  membership w' a = Some Ma → membership w' o = Some M →
  h ∈ Ma → h ∈ M →
  ∃ R, DSH.query a w' = Return R w' ∧ o ∈ R.
Proof.
  intros Hadd Hne HMa HM Ha Hh.
  destruct (add_files o w w' r Hadd) as (obj & M' & Hobj & Hm & _ & Hf).
  unfold membership in HM. rewrite Hobj in HM. simpl in HM.
  rewrite Hm in HM. injection HM as ->.
  destruct (Hf h Hh) as (bucket & Hb & Hin).
  destruct (query_returns a w' Ma HMa) as (R & HR & Hchar).
  exists R. split; [exact HR|]. apply Hchar. split; [congruence|].
  exists h, bucket. auto.
Qed.

Lemma added_is_visible_witness :
  DSH.add objB before_B = Return This (after scenario_adds) ∧
  ∃ R, DSH.query objA (after scenario_adds) = Return R (after scenario_adds) ∧ objB ∈ R.
Proof.
  assert (DSH.add objB before_B = Return This (after scenario_adds)) as Hadd.
  { vm_compute. reflexivity. }
  split; [exact Hadd|].
  apply (added_is_visible objB objA before_B (after scenario_adds) This
           (list_to_set [16777619; 4278189677; 4294967294; 0]) {[0]} 0 Hadd).
  - discriminate.
  - vm_compute. reflexivity.
  - vm_compute. reflexivity.
  - apply (bool_decide_unpack _). vm_compute. reflexivity.
  - apply (bool_decide_unpack _). vm_compute. reflexivity.
Defined.

(** ** The state a call leaves, when the caller catches what is thrown *)

Lemma world_after_add (o : objref) (w w' : world) :
  world_after (DSH.add o w) = Some w' → w' = w ∨ ∃ r, DSH.add o w = Return r w'.
Proof.
  destruct (DSH.add o w) as [r w1|e w1|] eqn:Hadd; simpl; intros Hw; [| |discriminate].
  - injection Hw as <-. right. eauto.
  - injection Hw as <-. left. unfold DSH.add in Hadd.
    destruct (heap w !! o) as [obj|]; [|congruence].
    destruct (DSH.getHashFromObject (this w) obj); discriminate.
Qed.

Lemma world_after_delete (o : objref) (w w' : world) :
  world_after (DSH.delete o w) = Some w' → w' = w ∨ DSH.delete o w = Return This w'.
Proof.
  unfold DSH.delete.
  destruct (heap w !! o) as [obj|]; [|simpl; intros [= <-]; left; reflexivity].
  destruct (__spatialHashes obj); simpl; intros [= <-]; [right|left]; reflexivity.
Qed.

Lemma world_after_update (o : objref) (w w' : world) :
  world_after (DSH.update o w) = Some w' →
  w' = w ∨ ∃ w1, DSH.delete o w = Return This w1 ∧ DSH.add o w1 = Return This w'.
Proof.
  destruct (DSH.update o w) as [r w2|e w2|] eqn:Hupd; simpl; intros Hw; [| |discriminate].
  - injection Hw as <-. right. apply update_returns_inv in Hupd as (_ & Hw1). exact Hw1.
  - injection Hw as <-. left. unfold DSH.update in Hupd.
    destruct (DSH.delete o w) as [[] w1|e1 w1|] eqn:Hdel; [| | |discriminate].
    + apply delete_returns_inv in Hdel as (obj & M & _ & _ & _ & _ & _ & _ & Ho).
      unfold DSH.add in Hupd. rewrite Ho in Hupd.
      destruct (DSH.getHashFromObject (this w1) (DSH.with_hashes None obj)); discriminate.
    + injection Hupd as _ <-.
      assert (world_after (DSH.delete o w) = Some w1) as Hw by (rewrite Hdel; reflexivity).
      apply world_after_delete in Hw as [Hw|Hw]; [exact Hw|congruence].
    + injection Hupd as _ <-.
      assert (world_after (DSH.delete o w) = Some w1) as Hw by (rewrite Hdel; reflexivity).
      apply world_after_delete in Hw as [Hw|Hw]; [exact Hw|congruence].
Qed.

(** ** What a call on one object leaves alone *)

Lemma leaves_others_refl (o : objref) (w : world) : leaves_others o w w.
Proof. split; [reflexivity|]. split; [reflexivity|]. intros o' _. split; reflexivity. Qed.

Lemma leaves_others_trans (o : objref) (w w1 w2 : world) :
  leaves_others o w w1 → leaves_others o w1 w2 → leaves_others o w w2.
Proof.
  intros (Hc1 & Ho1 & Hf1) (Hc2 & Ho2 & Hf2).
  split; [congruence|]. split; [congruence|].
  intros o' Hne. destruct (Hf1 o' Hne) as [Hh1 Hb1]. destruct (Hf2 o' Hne) as [Hh2 Hb2].
  split; [congruence|]. intros h. rewrite Hb2. apply Hb1.
Qed.

Lemma add_leaves_others (o : objref) (w w' : world) (r : ret) :
  DSH.add o w = Return r w' → leaves_others o w w'.
Proof.
  intros Hadd.
  destruct (add_returns_inv o w w' r Hadd)
    as (_ & obj & M & _ & _ & Hthis & Ht & _ & Hother & _).
  split; [rewrite Hthis; reflexivity|]. split; [rewrite Hthis; reflexivity|].
  intros o' Hne. split; [apply Hother, Hne|].
  intros h. unfold bucket_at, DSH.get. fold (table w) (table w'). rewrite Ht.
  case_decide; [|reflexivity]. simpl. set_solver.
Qed.

Lemma delete_leaves_others (o : objref) (w w' : world) :
  DSH.delete o w = Return This w' → leaves_others o w w'.
Proof.
  intros Hdel.
  destruct (delete_returns_inv o w w' Hdel)
    as (obj & M & _ & _ & Hthis & Ht & _ & Hother & _).
  split; [rewrite Hthis; reflexivity|]. split; [rewrite Hthis; reflexivity|].
  intros o' Hne. split; [apply Hother, Hne|].
  intros h. unfold bucket_at, DSH.get. fold (table w) (table w'). rewrite Ht.
  case_decide; [|reflexivity]. rewrite elem_of_default_without. tauto.
Qed.

(** X9: [add], [delete] and [update] on one object, whether they return or
    throw, never change the cell size or the overflow, never change another
    object, and never put another object into a bucket or take it out of
    one. *)
Theorem calls_leave_others (o : objref) (w w' : world) :
  world_after (DSH.add o w) = Some w' ∨
  world_after (DSH.delete o w) = Some w' ∨
  world_after (DSH.update o w) = Some w' →
  leaves_others o w w'.
Proof.
  intros [Hw | [Hw | Hw]].
  - apply world_after_add in Hw as [-> | [r Hadd]].
    + apply leaves_others_refl.
    + eapply add_leaves_others, Hadd.
  - apply world_after_delete in Hw as [-> | Hdel].
    + apply leaves_others_refl.
    + apply delete_leaves_others, Hdel.
  - apply world_after_update in Hw as [-> | (w1 & Hdel & Hadd)].
    + apply leaves_others_refl.
    + eapply leaves_others_trans.
      * apply delete_leaves_others, Hdel.
      * eapply add_leaves_others, Hadd.
Qed.

Lemma calls_leave_others_witness :
  world_after (DSH.update objA moved_A) = Some (after (scenario_adds ++ scenario_move)) ∧
  leaves_others objA moved_A (after (scenario_adds ++ scenario_move)).
Proof.
  assert (world_after (DSH.update objA moved_A) =
            Some (after (scenario_adds ++ scenario_move))) as Hupd.
  { vm_compute. reflexivity. }
  split; [exact Hupd|].
  apply (calls_leave_others objA moved_A (after (scenario_adds ++ scenario_move))).
  right. right. exact Hupd.
Defined.

(** ** Each invariant on its own *)

Section Keeps.

Variable P : world → Prop.
Variable guard : objref → world → bool.

Hypothesis guard_untracked : ∀ o w, membership w o = None → guard o w = true.
Hypothesis P_same :
  ∀ w w', table w' = table w → (∀ o, membership w' o = membership w o) → P w → P w'.
Hypothesis P_add :
  ∀ o w w' r, P w → guard o w = true → DSH.add o w = Return r w' → P w'.
Hypothesis P_delete : ∀ o w w', P w → DSH.delete o w = Return This w' → P w'.
Hypothesis P_clear : ∀ h w w', P w → DSH.clear h w = Return tt w' → P w'.
Hypothesis P_clearAll : ∀ w w', P w → DSH.clearAll w = Return tt w' → P w'.

Lemma step_keeps (ev : event) (w w' : world) :
  P w → guarded guard ev w = true → step ev w = Some w' → P w'.
Proof.
  intros HP Hg Hs. destruct ev as [o bx by_ bw bh|v|n|o|o|o]; simpl in Hs, Hg.
  - injection Hs as <-. apply (P_same w); [reflexivity| |exact HP].
    intros o'. unfold membership, place; simpl.
    destruct (decide (o' = o)) as [->|Ho].
    + rewrite lookup_insert_eq. reflexivity.
    + rewrite lookup_insert_ne by congruence. reflexivity.
  - unfold DSH.set_cellSize in Hs.
    destruct v; try (injection Hs as <-; exact HP).
    destruct (Num.leb n (Num.of_Z 0)); injection Hs as <-; [exact HP|].
    apply (P_same w); [reflexivity|reflexivity|exact HP].
  - injection Hs as <-. apply (P_same w); [reflexivity|reflexivity|exact HP].
  - apply world_after_add in Hs as [-> | [r Hadd]]; [exact HP|].
    apply (P_add o w w' r); assumption.
  - apply world_after_delete in Hs as [-> | Hdel]; [exact HP|].
    apply (P_delete o w w'); assumption.
  - apply world_after_update in Hs as [-> | (w1 & Hdel & Hadd)]; [exact HP|].
    apply (P_add o w1 w' This); [|apply guard_untracked|exact Hadd].
    + apply (P_delete o w w1); assumption.
    + apply delete_returns_inv in Hdel as (obj & M & _ & _ & _ & _ & Hmem & _).
      rewrite Hmem, decide_True by reflexivity. reflexivity.
Qed.

Lemma run_if_keeps (permitted : event → world → bool) (evs : list event) (w w' : world) :
  (∀ ev w, permitted ev w = true → guarded guard ev w = true) →
  P w → run_if permitted evs w = Some w' → P w'.
Proof.
  intros Hperm. revert w. induction evs as [|ev evs IH]; intros w HP Hrun; simpl in Hrun.
  - injection Hrun as <-. exact HP.
  - destruct (permitted ev w) eqn:Hd; [|discriminate].
    destruct (step ev w) as [w1|] eqn:Hs; [|discriminate].
    simpl in Hrun. apply (IH w1); [|exact Hrun].
    apply (step_keeps ev w w1); [exact HP|apply Hperm, Hd|exact Hs].
Qed.

Lemma perform_if_keeps (permitted : action → world → bool) (acts : list action)
    (w w' : world) :
  (∀ ev w, permitted (Call ev) w = true → guarded guard ev w = true) →
  P w → perform_if permitted acts w = Some w' → P w'.
Proof.
  intros Hperm. revert w. induction acts as [|a acts IH]; intros w HP Hrun; simpl in Hrun.
  - injection Hrun as <-. exact HP.
  - destruct (permitted a w) eqn:Hd; [|discriminate].
    destruct (perform a w) as [w1|] eqn:Hs; [|discriminate].
    simpl in Hrun. apply (IH w1); [|exact Hrun].
    destruct a as [ev|h|]; simpl in Hs.
    + apply (step_keeps ev w w1); [exact HP|apply Hperm, Hd|exact Hs].
    + injection Hs as <-. apply (P_clear h w); [exact HP|reflexivity].
    + injection Hs as <-. apply (P_clearAll w); [exact HP|reflexivity].
Qed.

End Keeps.

Lemma I1_add (o : objref) (w w' : world) (r : ret) :
  I1 w → DSH.add o w = Return r w' → I1 w'.
Proof.
  intros H1 Hadd.
  destruct (add_returns_inv o w w' r Hadd) as (_ & obj & M & _ & _ & _ & Ht & Hmem & _).
  intros o1 M1 h Hm1 Hh. rewrite Hmem in Hm1. rewrite Ht.
  destruct (decide (o1 = o)) as [->|Ho].
  - injection Hm1 as <-. rewrite decide_True by exact Hh.
    eexists. split; [reflexivity|set_solver].
  - destruct (H1 o1 M1 h Hm1 Hh) as (b & Hb & Hin). rewrite Hb.
    case_decide; eexists; (split; [reflexivity|]); simpl; set_solver.
Qed.

Lemma I1_delete (o : objref) (w w' : world) :
  I1 w → DSH.delete o w = Return This w' → I1 w'.
Proof.
  intros H1 Hdel.
  destruct (delete_returns_inv o w w' Hdel) as (obj & M & _ & _ & _ & Ht & Hmem & _).
  intros o1 M1 h Hm1 Hh. rewrite Hmem in Hm1.
  case_decide as Ho; [discriminate|].
  destruct (H1 o1 M1 h Hm1 Hh) as (b & Hb & Hin).
  rewrite Ht, Hb. case_decide.
  - apply without_keeps; assumption.
  - eauto.
Qed.

Lemma I2_add (o : objref) (w w' : world) (r : ret) :
  I2 w → add_permitted o w = true → DSH.add o w = Return r w' → I2 w'.
Proof.
  intros H2 Hp Hadd.
  destruct (add_returns_inv o w w' r Hadd)
    as (_ & obj & M & Hobj & Hcov & _ & Ht & Hmem & _).
  intros h bucket o1 Hb Hin. rewrite Ht in Hb. rewrite Hmem.
  destruct (decide (h ∈ M)) as [HhM|HhM].
  - injection Hb as <-.
    destruct (decide (o1 = o)) as [->|Ho]; [eauto|].
    destruct (table w !! h) as [b0|] eqn:Hb0; simpl in Hin; [|set_solver].
    apply (H2 h b0 o1 Hb0). set_solver.
  - destruct (H2 h bucket o1 Hb Hin) as (M1 & Hm1 & Hh1).
    destruct (decide (o1 = o)) as [->|Ho]; [|eauto].
    rewrite (add_permitted_spec o w obj Hobj Hp M M1 Hcov Hm1) in Hh1. contradiction.
Qed.

Lemma I2_delete (o : objref) (w w' : world) :
  I2 w → DSH.delete o w = Return This w' → I2 w'.
Proof.
  intros H2 Hdel.
  destruct (delete_returns_inv o w w' Hdel) as (obj & M & Hobj & Hm & _ & Ht & Hmem & _).
  assert (membership w o = Some M) as HmO.
  { unfold membership. rewrite Hobj. exact Hm. }
  intros h bucket o1 Hb Hin. rewrite Ht in Hb. rewrite Hmem.
  case_decide as HhM.
  - apply (elem_of_without _ _ _ o1) in Hb. apply Hb in Hin.
    destruct Hin as (Hne & b0 & Hb0 & Hin0).
    rewrite decide_False by exact Hne. eauto.
  - destruct (H2 h bucket o1 Hb Hin) as (M1 & Hm1 & Hh1).
    case_decide as Ho.
    + subst o1. rewrite HmO in Hm1. injection Hm1 as <-. contradiction.
    + eauto.
Qed.

Lemma I3_add (o : objref) (w w' : world) (r : ret) :
  I3 w → DSH.add o w = Return r w' → I3 w'.
Proof.
  intros H3 Hadd.
  destruct (add_returns_inv o w w' r Hadd) as (_ & obj & M & _ & _ & _ & Ht & _).
  intros h bucket Hb. rewrite Ht in Hb. case_decide.
  - injection Hb as <-. set_solver.
  - eauto.
Qed.

Lemma I3_delete (o : objref) (w w' : world) :
  I3 w → DSH.delete o w = Return This w' → I3 w'.
Proof.
  intros H3 Hdel.
  destruct (delete_returns_inv o w w' Hdel) as (obj & M & _ & _ & _ & Ht & _).
  intros h bucket Hb. rewrite Ht in Hb. case_decide.
  - eapply without_nonempty; eassumption.
  - eauto.
Qed.

Lemma fresh_index (v : value) (w : world) :
  DSH.constructor v ∅ = Return tt w → I1 w ∧ I2 w ∧ I3 w ∧ keys_are_uint32 w.
Proof.
  intros Hc. pose proof (constructor_invariants v w Hc) as (H1 & H2 & H3).
  split; [exact H1|]. split; [exact H2|]. split; [exact H3|].
  assert (table w = ∅ ∧ heap w = ∅) as [Ht Hh].
  { unfold DSH.constructor, DSH.set_cellSize in Hc.
    destruct v; try discriminate;
      repeat match type of Hc with
             | context [if ?b then _ else _] => destruct b
             end; try discriminate; injection Hc as <-; split; reflexivity. }
  split.
  - intros h bucket Hb. rewrite Ht, lookup_empty in Hb. discriminate.
  - intros o M h Hm. unfold membership in Hm. rewrite Hh, lookup_empty in Hm.
    discriminate.
Qed.

(** X10: I3 whatever the caller does: from a fresh index, after any sequence of
    calls, [clear] and [clearAll] and [add] on moved objects among them, no
    bucket of the table is empty. *)
Theorem no_empty_bucket_ever (v : value) (w0 : world) (acts : list action) (w : world) :
  DSH.constructor v ∅ = Return tt w0 →
  perform_if (λ _ _, true) acts w0 = Some w →
  I3 w.
Proof.
  intros Hnew Hrun.
  refine (perform_if_keeps I3 (λ _ _, true) _ _ _ _ _ _ (λ _ _, true) acts w0 w _ _ Hrun).
  - reflexivity.
  - intros w1 w2 Ht _ H3 h bucket Hb. rewrite Ht in Hb. eauto.
  - intros o w1 w2 r H3 _. apply I3_add, H3.
  - intros o w1 w2. apply I3_delete.
  - intros h w1 w2 H3 [= <-] h' bucket Hb. unfold table in Hb; simpl in Hb.
    unfold DSH.clear_bucket in Hb. apply lookup_delete_Some in Hb as [_ Hb]. eauto.
  - intros w1 w2 _ [= <-] h bucket Hb. unfold table in Hb; simpl in Hb.
    rewrite lookup_empty in Hb. discriminate.
  - intros [] w1 _; reflexivity.
  - apply (fresh_index v), Hnew.
Qed.

Lemma no_empty_bucket_ever_witness :
  ∃ w, perform_if (λ _ _, true) mixed_calls empty_world = Some w ∧ I3 w.
Proof.
  eexists. split; [vm_compute; reflexivity|].
  apply (no_empty_bucket_ever VUndefined empty_world mixed_calls).
  - reflexivity.
  - vm_compute. reflexivity.
Defined.

(** X11: I1 without any discipline: from a fresh index, after any sequence of
    [add], [delete] and [update] calls, moves and configuration changes, every
    tracked object is in the bucket of every key of its membership set. *)
Theorem tracked_objects_are_filed (v : value) (w0 : world) (evs : list event) (w : world) :
  DSH.constructor v ∅ = Return tt w0 →
  run evs w0 = Some w →
  I1 w.
Proof.
  intros Hnew Hrun.
  refine (run_if_keeps I1 (λ _ _, true) _ _ _ _ (λ _ _, true) evs w0 w _ _ Hrun).
  - reflexivity.
  - intros w1 w2 Ht Hmem H1 o M h Hm Hh. rewrite Hmem in Hm. rewrite Ht. eauto.
  - intros o w1 w2 r H1 _. apply I1_add, H1.
  - intros o w1 w2. apply I1_delete.
  - intros [] w1 _; reflexivity.
  - apply (fresh_index v), Hnew.
Qed.

Lemma tracked_objects_are_filed_witness :
  ∃ w, run double_add empty_world = Some w ∧ I1 w.
Proof.
  eexists. split; [vm_compute; reflexivity|].
  apply (tracked_objects_are_filed VUndefined empty_world double_add).
  - reflexivity.
  - vm_compute. reflexivity.
Defined.

(** X12: I2 through [clear] and [clearAll]: from a fresh index, after any sequence
    of calls in which [add] is never called on a tracked object whose covering
    set differs from its membership set, every object in a bucket is tracked
    and has the key of the bucket in its membership set. *)
Theorem buckets_hold_tracked_objects
    (v : value) (w0 : world) (acts : list action) (w : world) :
  DSH.constructor v ∅ = Return tt w0 →
  perform_if careful acts w0 = Some w →
  I2 w.
Proof.
  intros Hnew Hrun.
  refine (perform_if_keeps I2 add_permitted _ _ _ _ _ _ careful acts w0 w _ _ Hrun).
  - intros o w1 Hm. unfold add_permitted. rewrite Hm. reflexivity.
  - intros w1 w2 Ht Hmem H2 h bucket o Hb Hin. rewrite Ht in Hb. rewrite Hmem. eauto.
  - intros o w1 w2 r. apply I2_add.
  - intros o w1 w2. apply I2_delete.
  - intros h w1 w2 H2 [= <-] h' bucket o Hb Hin. unfold table in Hb; simpl in Hb.
    unfold DSH.clear_bucket in Hb. apply lookup_delete_Some in Hb as [_ Hb].
    apply (H2 h' bucket o Hb Hin).
  - intros w1 w2 _ [= <-] h bucket o Hb. unfold table in Hb; simpl in Hb.
    rewrite lookup_empty in Hb. discriminate.
  - intros [] w1 Hd; simpl in Hd |- *; try reflexivity. exact Hd.
  - apply (fresh_index v), Hnew.
Qed.

Lemma buckets_hold_tracked_objects_witness :
  ∃ w, perform_if careful mixed_calls empty_world = Some w ∧ I2 w.
Proof.
  eexists. split; [vm_compute; reflexivity|].
  apply (buckets_hold_tracked_objects VUndefined empty_world mixed_calls).
  - reflexivity.
  - vm_compute. reflexivity.
Defined.

(** ** The keys are unsigned 32-bit integers *)

Lemma hash_range (x y : number) : 0 ≤ DSH.hash x y < 2 ^ 32.
Proof. unfold DSH.hash, Num.ToUint32_of_int. apply Z.mod_pos_bound. lia. Qed.

Lemma getHashFromObject_range (t : DynamicSpatialHash) (obj : JSObject) (M : gset key) (h : key) :
  DSH.getHashFromObject t obj = Some M → h ∈ M → 0 ≤ h < 2 ^ 32.
Proof.
  unfold DSH.getHashFromObject. destruct (DSH.covering_cells t obj) as [cs|]; [|discriminate].
  simpl. intros [= <-]. rewrite elem_of_list_to_set, list_elem_of_fmap.
  intros (c & -> & _). apply hash_range.
Qed.

(** X13: From a fresh index, whatever the caller does, every key of the table and
    every key of a membership set lies in [0, 2^32): the [>>> 0] of [hash]
    is the only source of keys. *)
Theorem keys_fit_32_bits (v : value) (w0 : world) (acts : list action) (w : world) :
  DSH.constructor v ∅ = Return tt w0 →
  perform_if (λ _ _, true) acts w0 = Some w →
  keys_are_uint32 w.
Proof.
  intros Hnew Hrun.
  refine (perform_if_keeps keys_are_uint32 (λ _ _, true) _ _ _ _ _ _
            (λ _ _, true) acts w0 w _ _ Hrun).
  - reflexivity.
  - intros w1 w2 Ht Hmem [Hk Hm]. split.
    + intros h bucket Hb. rewrite Ht in Hb. eauto.
    + intros o M h HM. rewrite Hmem in HM. eauto.
  - intros o w1 w2 r [Hk Hm] _ Hadd.
    destruct (add_returns_inv o w1 w2 r Hadd)
      as (_ & obj & M & _ & Hcov & _ & Ht & Hmem & _).
    split.
    + intros h bucket Hb. rewrite Ht in Hb. case_decide as Hh.
      * apply (getHashFromObject_range _ _ _ _ Hcov Hh).
      * eauto.
    + intros o1 M1 h HM1 Hh. rewrite Hmem in HM1. case_decide.
      * injection HM1 as <-. apply (getHashFromObject_range _ _ _ _ Hcov Hh).
      * eauto.
  - intros o w1 w2 [Hk Hm] Hdel.
    destruct (delete_returns_inv o w1 w2 Hdel) as (obj & M & _ & _ & _ & Ht & Hmem & _).
    split.
    + intros h bucket Hb. rewrite Ht in Hb. case_decide as Hh; [|eauto].
      unfold without in Hb. destruct (table w1 !! h) as [b0|] eqn:Hb0; [|discriminate].
      eauto.
    + intros o1 M1 h HM1 Hh. rewrite Hmem in HM1. case_decide; [discriminate|eauto].
  - intros h w1 w2 [Hk Hm] [= <-]. split.
    + intros h' bucket Hb. unfold table in Hb; simpl in Hb.
      unfold DSH.clear_bucket in Hb. apply lookup_delete_Some in Hb as [_ Hb]. eauto.
    + exact Hm.
  - intros w1 w2 [Hk Hm] [= <-]. split.
    + intros h bucket Hb. unfold table in Hb; simpl in Hb.
      rewrite lookup_empty in Hb. discriminate.
    + exact Hm.
  - intros [] w1 _; reflexivity.
  - apply (fresh_index v), Hnew.
Qed.

Lemma keys_fit_32_bits_witness :
  ∃ w, perform_if (λ _ _, true) (Call <$> stale_add) empty_world = Some w ∧
       keys_are_uint32 w.
Proof.
  eexists. split; [vm_compute; reflexivity|].
  apply (keys_fit_32_bits VUndefined empty_world (Call <$> stale_add)).
  - reflexivity.
  - vm_compute. reflexivity.
Defined.

(** ** [clear] and [clearAll] *)

(** X14: [clear(hash)] drops the bucket of one key and looks at nothing else: the
    other buckets and every object stay as they are (so the objects of the
    bucket keep the key in their membership sets), clearing a key that has no
    bucket changes nothing, and [query] afterwards returns what it finds in
    the buckets of the other keys. *)
Theorem clear_drops_one_bucket (h : key) (w : world) :
  ∃ w', DSH.clear h w = Return tt w' ∧
        heap w' = heap w ∧
        DSH.get h w' = None ∧
        (∀ h', h' ≠ h → DSH.get h' w' = DSH.get h' w) ∧
        (DSH.get h w = None → w' = w) ∧
        (∀ a Ma, membership w a = Some Ma →
           ∃ R, DSH.query a w' = Return R w' ∧
                ∀ b, b ∈ R ↔ b ≠ a ∧ ∃ h', h' ≠ h ∧ h' ∈ Ma ∧ b ∈ bucket_at w h').
Proof.
  eexists. split; [reflexivity|]. split; [reflexivity|].
  unfold DSH.get, DSH.clear_bucket; simpl.
  split; [apply lookup_delete_eq|].
  split; [intros h' Hne; apply lookup_delete_ne; congruence|].
  split.
  - intros Hnone. apply world_eq; try reflexivity. unfold table; simpl.
    apply delete_id, Hnone.
  - intros a Ma HMa.
    destruct (query_returns a (mkWorld (DSH.with_table (base.delete h (priv_table (this w)))
                                          (this w)) (heap w)) Ma HMa) as (R & HR & Hin).
    exists R. split; [exact HR|]. intros b. rewrite Hin. unfold table; simpl.
    unfold bucket_at, DSH.get. split.
    + intros (Hne & h' & bucket & Hh' & Hb & Hbin). split; [exact Hne|].
      apply lookup_delete_Some in Hb as [Hhh Hb].
      exists h'. rewrite Hb. split; [congruence|]. split; assumption.
    + intros (Hne & h' & Hhh & Hh' & Hbin). split; [exact Hne|].
      destruct (priv_table (this w) !! h') as [bucket|] eqn:Hb; simpl in Hbin; [|set_solver].
      exists h', bucket. split; [exact Hh'|]. split; [|exact Hbin].
      rewrite lookup_delete_ne by congruence. exact Hb.
Qed.

(** X15: [clearAll()] empties the table and looks at no object: every membership
    set stays, so I1 fails for every object tracked under some key, while I2
    and I3 hold; [query] on a tracked object returns the empty set, and
    [delete] still returns the index and leaves the table empty. *)
Theorem clearAll_forgets_buckets (w : world) :
  ∃ w', DSH.clearAll w = Return tt w' ∧
        heap w' = heap w ∧
        (∀ h, DSH.get h w' = None) ∧
        I2 w' ∧ I3 w' ∧
        (∀ o M, membership w o = Some M →
           (M ≠ ∅ → ¬ I1 w') ∧
           DSH.query o w' = Return ∅ w' ∧
           ∃ wd, DSH.delete o w' = Return This wd ∧ ∀ h, DSH.get h wd = None).
Proof.
  eexists. split; [reflexivity|]. split; [reflexivity|].
  set (w' := mkWorld (DSH.with_table ∅ (this w)) (heap w)).
  assert (∀ h, table w' !! h = None) as Hempty by (intros h; apply lookup_empty).
  split; [exact Hempty|].
  split; [intros h bucket o Hb; rewrite Hempty in Hb; discriminate|].
  split; [intros h bucket Hb; rewrite Hempty in Hb; discriminate|].
  intros o M HM. split; [|split].
  - intros Hne H1. apply set_choose_L in Hne as [h Hh].
    destruct (H1 o M h HM Hh) as (bucket & Hb & _). rewrite Hempty in Hb. discriminate.
  - destruct (query_returns o w' M HM) as (R & HR & Hin).
    rewrite HR. f_equal. apply set_eq. intros b. rewrite Hin. split; [|set_solver].
    intros (_ & h & bucket & _ & Hb & _). rewrite Hempty in Hb. discriminate.
  - destruct (membership_inv w' o M HM) as (obj & Hobj & Hm).
    destruct (delete_returns o w' obj M Hobj Hm) as (wd & Hdel & _ & Ht & _).
    exists wd. split; [exact Hdel|].
    intros h. unfold DSH.get. fold (table wd). rewrite Ht, Hempty.
    case_decide; reflexivity.
Qed.

(** ** Bounding boxes that are not numbers *)

Lemma mul_NaN_l (f : number) : Num.mul Num.NaN f = Num.NaN.
Proof. reflexivity. Qed.

Lemma sub_NaN_r (f : number) : Num.sub f Num.NaN = Num.NaN.
Proof. destruct f; reflexivity. Qed.

Lemma no_cell_without_row (xs : list Z) :
  (cx ← xs; cy ← ([] : list Z); [(cx, cy)]) = [].
Proof. induction xs as [|cx xs IH]; [reflexivity|]. simpl. exact IH. Qed.

Lemma covering_cells_NaN (t : DynamicSpatialHash) (obj : JSObject) (cs : list (Z * Z)) :
  x obj = Num.NaN ∨ y obj = Num.NaN ∨ width obj = Num.NaN ∨ height obj = Num.NaN →
  DSH.covering_cells t obj = Some cs → cs = [].
Proof.
  intros Hnan. unfold DSH.covering_cells.
  assert (DSH.minX t obj = Num.NaN ∨ DSH.minY t obj = Num.NaN) as [HminX | HminY].
  { unfold DSH.minX, DSH.minY. destruct Hnan as [-> | [-> | [-> | ->]]].
    - left. reflexivity.
    - right. reflexivity.
    - left. rewrite mul_NaN_l, sub_NaN_r. reflexivity.
    - right. rewrite mul_NaN_l, sub_NaN_r. reflexivity. }
  - rewrite HminX. simpl. congruence.
  - rewrite HminY.
    destruct (DSH.counter_values (DSH.minX t obj) (DSH.maxX t obj)) as [[|cx xs]|];
      [congruence| |discriminate].
    change (DSH.counter_values Num.NaN (DSH.maxY t obj)) with (Some ([] : list Z)).
    intros [= <-]. apply (no_cell_without_row (cx :: xs)).
Qed.

(** X16: An object with NaN for [x], [y], [width] or [height] is filed nowhere:
    the test of a loop of [getHashFromObject] fails at once, so when [add]
    returns the object is tracked with an empty membership set, the table is
    as it was, and [query] on the object returns the empty set.  When [x] or
    [width] is NaN, [add] does return. *)
Theorem NaN_box_is_filed_nowhere (o : objref) (w : world) (obj : JSObject) :
  heap w !! o = Some obj →
  x obj = Num.NaN ∨ y obj = Num.NaN ∨ width obj = Num.NaN ∨ height obj = Num.NaN →
  (x obj = Num.NaN ∨ width obj = Num.NaN → ∃ w', DSH.add o w = Return This w') ∧
  (∀ r w', DSH.add o w = Return r w' →
           table w' = table w ∧ membership w' o = Some ∅ ∧
           DSH.query o w' = Return ∅ w').
Proof.
  intros Hobj Hnan. split.
  - intros Hx. unfold DSH.add. rewrite Hobj.
    unfold DSH.getHashFromObject, DSH.covering_cells.
    assert (DSH.minX (this w) obj = Num.NaN) as HminX.
    { unfold DSH.minX. destruct Hx as [-> | ->].
      - reflexivity.
      - rewrite mul_NaN_l, sub_NaN_r. reflexivity. }
    rewrite HminX. simpl. eauto.
  - intros r w' Hadd.
    destruct (add_returns_inv o w w' r Hadd)
      as (_ & obj' & M & Hobj' & Hcov & _ & Ht & Hmem & _).
    rewrite Hobj in Hobj'. injection Hobj' as <-.
    assert (M = ∅) as ->.
    { unfold DSH.getHashFromObject in Hcov.
      destruct (DSH.covering_cells (this w) obj) as [cs|] eqn:Hcs; [|discriminate].
      rewrite (covering_cells_NaN _ _ cs Hnan Hcs) in Hcov.
      injection Hcov as <-. reflexivity. }
    assert (membership w' o = Some ∅) as HM.
    { rewrite Hmem, decide_True by reflexivity. reflexivity. }
    split; [|split; [exact HM|]].
    + apply map_eq. intros h. rewrite Ht. rewrite decide_False by set_solver. reflexivity.
    + destruct (query_returns o w' ∅ HM) as (R & HR & Hin).
      rewrite HR. f_equal. apply set_eq. intros b. rewrite Hin. set_solver.
Qed.

Lemma NaN_box_is_filed_nowhere_witness :
  (x NaN_box = Num.NaN ∨ width NaN_box = Num.NaN →
   ∃ w', DSH.add objA (mkWorld (this empty_world) {[objA := NaN_box]}) = Return This w') ∧
  (∀ r w', DSH.add objA (mkWorld (this empty_world) {[objA := NaN_box]}) = Return r w' →
           table w' = table (mkWorld (this empty_world) {[objA := NaN_box]}) ∧
           membership w' objA = Some ∅ ∧
           DSH.query objA w' = Return ∅ w').
Proof.
  apply (NaN_box_is_filed_nowhere objA (mkWorld (this empty_world) {[objA := NaN_box]})
           NaN_box).
  - vm_compute. reflexivity.
  - left. reflexivity.
Defined.

(** ** Bounding boxes without bound *)

Lemma shr_1_nonneg (mrs : shr_record) : 0 ≤ shr_m mrs → 0 ≤ shr_m (shr_1 mrs).
Proof. destruct mrs as [m r s]. destruct m as [|[p|p|]|p]; simpl; lia. Qed.

Lemma shr_fexp_nonneg (m e : Z) (l : location) :
  0 ≤ m → 0 ≤ shr_m (shr_fexp Num.prec Num.emax m e l).1.
Proof.
  intros Hm. unfold shr_fexp, shr.
  assert (0 ≤ shr_m (shr_record_of_loc m l)) as H0 by (destruct l as [|[]]; exact Hm).
  destruct (fexp Num.prec Num.emax (Zdigits2 m + e) - e) as [|p|p]; simpl; try exact H0.
  rewrite iter_pos_iter. apply Pos.iter_invariant; [|exact H0].
  intros mrs. apply shr_1_nonneg.
Qed.

Lemma round_nearest_even_nonneg (m : Z) (l : location) :
  0 ≤ m → 0 ≤ round_nearest_even m l.
Proof.
  intros Hm. unfold round_nearest_even.
  destruct l as [|[]]; try destruct (IntDef.Z.even m); lia.
Qed.

Lemma binary_round_aux_not_NaN (s : bool) (m e : Z) (l : location) :
  0 ≤ m → binary_round_aux Num.prec Num.emax s m e l ≠ S754_nan.
Proof.
  intros Hm. unfold binary_round_aux.
  pose proof (shr_fexp_nonneg m e l Hm) as H1.
  destruct (shr_fexp Num.prec Num.emax m e l) as [mrs1 e1]. simpl in H1.
  pose proof (shr_fexp_nonneg _ e1 loc_Exact
                (round_nearest_even_nonneg _ (loc_of_shr_record mrs1) H1)) as H2.
  destruct (shr_fexp Num.prec Num.emax _ e1 loc_Exact) as [mrs2 e2]. simpl in H2.
  destruct (shr_m mrs2) as [|p|p]; [discriminate| |lia].
  destruct (e2 <=? Num.emax - Num.prec); discriminate.
Qed.

Lemma binary_normalize_not_NaN (m e : Z) (sz : bool) :
  binary_normalize Num.prec Num.emax m e sz ≠ S754_nan.
Proof.
  unfold binary_normalize, binary_round. destruct m as [|p|p]; [discriminate| |].
  - destruct (shl_align p e _) as [mz ez]. apply binary_round_aux_not_NaN. lia.
  - destruct (shl_align p e _) as [mz ez]. apply binary_round_aux_not_NaN. lia.
Qed.

Lemma increment_not_NaN (c : number) : c ≠ Num.NaN → Num.add c (Num.of_Z 1) ≠ Num.NaN.
Proof.
  intros Hc. rewrite of_Z_1. unfold pow2, Num.add, SFadd.
  destruct c as [s|s| |s m e]; try discriminate; [contradiction|].
  apply binary_normalize_not_NaN.
Qed.

Lemma leb_Infinity (c : number) : c ≠ Num.NaN → Num.leb c Num.Infinity = true.
Proof. destruct c as [s|[]| |[] m e]; try reflexivity. contradiction. Qed.

Lemma leb_minus_Infinity (hi : number) :
  hi ≠ Num.NaN → Num.leb (S754_infinity true) hi = true.
Proof. destruct hi as [s|[]| |[] m e]; try reflexivity. contradiction. Qed.

Lemma counter_steps_unbounded (fuel : nat) (c hi : number) :
  c ≠ Num.NaN → hi ≠ Num.NaN →
  hi = Num.Infinity ∨ c = S754_infinity true →
  DSH.counter_steps fuel c hi = None.
Proof.
  intros Hc Hhi Hinf. revert c Hc Hinf.
  induction fuel as [|fuel IH]; intros c Hc Hinf; [reflexivity|].
  cbn [DSH.counter_steps].
  assert (Num.leb c hi = true) as ->.
  { destruct Hinf as [-> | ->]; [apply leb_Infinity, Hc|apply leb_minus_Infinity, Hhi]. }
  rewrite IH; [reflexivity|apply increment_not_NaN, Hc|].
  destruct Hinf as [Hinf | ->]; [left; exact Hinf|right; reflexivity].
Qed.

(** X17: When the first bound of the outer loop of [getHashFromObject] is minus
    infinity, or the last one plus infinity (an infinite [x] or [width], or an
    infinite [overflow], gives such bounds), the loop [for (x = minX; x <=
    maxX; x++)] passes its test however many steps it has taken, and the
    object has no covering set. *)
Theorem unbounded_box_never_returns (t : DynamicSpatialHash) (obj : JSObject) :
  DSH.minX t obj ≠ Num.NaN → DSH.maxX t obj ≠ Num.NaN →
  DSH.maxX t obj = Num.Infinity ∨ DSH.minX t obj = S754_infinity true →
  (∀ fuel, DSH.counter_steps fuel (DSH.minX t obj) (DSH.maxX t obj) = None) ∧
  DSH.getHashFromObject t obj = None.
Proof.
  intros Hlo Hhi Hinf. split.
  - intros fuel. apply counter_steps_unbounded; assumption.
  - unfold DSH.getHashFromObject, DSH.covering_cells, DSH.counter_values.
    assert (Num.leb (DSH.minX t obj) (DSH.maxX t obj) = true) as ->.
    { destruct Hinf as [-> | ->]; [apply leb_Infinity, Hlo|apply leb_minus_Infinity, Hhi]. }
    simpl. destruct Hinf as [-> | ->]; simpl.
    + destruct (Num.to_safe_integer (DSH.minX t obj)); reflexivity.
    + reflexivity.
Qed.

Lemma unbounded_box_never_returns_witness :
  DSH.maxX (this empty_world) unbounded_box = Num.Infinity ∧
  (∀ fuel, DSH.counter_steps fuel (DSH.minX (this empty_world) unbounded_box)
             (DSH.maxX (this empty_world) unbounded_box) = None) ∧
  DSH.getHashFromObject (this empty_world) unbounded_box = None.
Proof.
  split; [vm_compute; reflexivity|].
  apply (unbounded_box_never_returns (this empty_world) unbounded_box).
  - vm_compute. discriminate.
  - vm_compute. discriminate.
  - left. vm_compute. reflexivity.
Defined.

(** ** The key of a cell with integer coordinates *)

Lemma ltb_mul_sign (a b : Z) :
  a ≠ 0 → b ≠ 0 → (a * b <? 0) = xorb (a <? 0) (b <? 0).
Proof.
  intros Ha Hb.
  destruct (Z.ltb_spec a 0), (Z.ltb_spec b 0), (Z.ltb_spec (a * b) 0); simpl;
    try reflexivity; nia.
Qed.

(** Multiplying integers is exact while the product stays below [2^53] in
    magnitude. *)
Lemma mul_holds (f g : number) (a b : Z) :
  holds_integer f a → holds_integer g b → Z.abs (a * b) < 2 ^ 53 →
  holds_integer (Num.mul f g) (a * b).
Proof.
  intros Hf Hg Hab.
  destruct f as [s1| | |s1 m1 e1], g as [s2| | |s2 m2 e2]; try contradiction.
  - simpl in Hf. subst a. reflexivity.
  - simpl in Hf. subst a. reflexivity.
  - simpl in Hg. subst b. simpl. lia.
  - destruct Hf as (He1 & Hd1 & Hm1 & Hs1 & Ha), Hg as (He2 & Hd2 & Hm2 & Hs2 & Hb).
    pose proof (digits2_pos_bounds m1) as Hb1. rewrite Hd1 in Hb1.
    pose proof (digits2_pos_bounds m2) as Hb2. rewrite Hd2 in Hb2.
    change (2 ^ (53 - 1)) with (2 ^ 52) in Hb1, Hb2.
    assert (0 < 2 ^ (- e1)) as Hp1 by (apply Z.pow_pos_nonneg; lia).
    assert (0 < 2 ^ (- e2)) as Hp2 by (apply Z.pow_pos_nonneg; lia).
    assert (2 ^ 104 ≤ Z.pos m1 * Z.pos m2) as Hbig.
    { change (2 ^ 104) with (2 ^ 52 * 2 ^ 52). apply Z.mul_le_mono_nonneg; lia. }
    assert (Z.pos m1 * Z.pos m2 = Z.abs (a * b) * 2 ^ (- e1 - e2)) as Hprod.
    { rewrite Hm1, Hm2, Z.abs_mul.
      replace (- e1 - e2) with (- e1 + - e2) by lia. rewrite Z.pow_add_r by lia. ring. }
    assert (0 < Z.abs (a * b)) as Hq by (rewrite Z.abs_mul; nia).
    destruct (- e1 - e2) as [|j|j] eqn:Hj; [|clear He1 He2|lia].
    { rewrite Z.pow_0_r in Hprod. lia. }
    set (q := Z.to_pos (Z.abs (a * b))).
    assert (Z.pos q = Z.abs (a * b)) as Hq' by (unfold q; lia).
    assert ((m1 * m2)%positive = Pos.iter xO q j) as Hmm.
    { apply Pos2Z.inj. rewrite Pos2Z.inj_mul, Hprod, pos_iter_xO, Hq'. reflexivity. }
    pose proof (digits2_pos_bounds q) as Hbq.
    assert (53 ≤ Z.pos (digits2_pos q) + Z.pos j) as Hdig.
    { destruct (Z.le_gt_cases 53 (Z.pos (digits2_pos q) + Z.pos j)) as [H|H]; [exact H|].
      exfalso.
      assert (Z.pos q * 2 ^ Z.pos j < 2 ^ Z.pos (digits2_pos q) * 2 ^ Z.pos j)
        by (apply Z.mul_lt_mono_pos_r; [apply Z.pow_pos_nonneg|]; lia).
      rewrite <- Z.pow_add_r in H0 by lia.
      assert (2 ^ (Z.pos (digits2_pos q) + Z.pos j) ≤ 2 ^ 52)
        by (apply Z.pow_le_mono_r; lia).
      assert (2 ^ 52 < 2 ^ 104) by (apply Z.pow_lt_mono_r; lia).
      rewrite <- Hq', <- Hj in Hprod. rewrite Hj in Hprod. lia. }
    assert (Num.mul (S754_finite s1 m1 e1) (S754_finite s2 m2 e2) =
            binary_round Num.prec Num.emax (xorb s1 s2) q 0) as ->.
    { rewrite <- (binary_round_scaled (xorb s1 s2) q j) by lia.
      unfold Num.mul, SFmul, binary_round, shl_align.
      rewrite fexp_eq, digits2_pos_iter, Hmm.
      replace (e1 + e2) with (- Z.pos j) by lia.
      destruct (Z.max (Z.pos (digits2_pos q) + Z.pos j + - Z.pos j - 53) (-1074) - - Z.pos j)
        as [|d|d] eqn:Hd; try reflexivity. lia. }
    destruct (binary_round_integer (xorb s1 s2) q) as (m & e & -> & He & Hm & Hd); [lia|].
    simpl. split; [exact He|]. split; [exact Hd|]. split; [rewrite Hm, Hq'; reflexivity|].
    split; [|lia]. subst s1 s2. symmetry. apply ltb_mul_sign; assumption.
Qed.

Lemma truncate_holds (f : number) (z : Z) : holds_integer f z → Num.truncate f = z.
Proof.
  destruct f as [s| | |s m e]; try contradiction.
  - intros ->. reflexivity.
  - intros (He & _ & Hm & Hs & Hz). unfold Num.truncate.
    assert (0 < 2 ^ (- e)) as Hpow by (apply Z.pow_pos_nonneg; lia).
    assert ((if 0 <=? e then Z.pos m * 2 ^ e else Z.pos m / 2 ^ (- e)) = Z.abs z) as ->.
    { destruct (Z.leb_spec 0 e) as [He0|He0].
      - assert (e = 0) as -> by lia. rewrite Hm. simpl. lia.
      - rewrite Hm, Z.div_mul by lia. reflexivity. }
    subst s. destruct (Z.ltb_spec z 0); lia.
Qed.

Lemma lxor_mod_2_32 (X Y : Z) :
  Z.lxor X Y mod 2 ^ 32 = Z.lxor (X mod 2 ^ 32) (Y mod 2 ^ 32).
Proof.
  apply Z.bits_inj'. intros n Hn. rewrite Z.lxor_spec.
  destruct (Z.lt_ge_cases n 32) as [Hlt|Hge].
  - rewrite !Z.mod_pow2_bits_low by exact Hlt. apply Z.lxor_spec.
  - rewrite !Z.mod_pow2_bits_high by lia. reflexivity.
Qed.

Lemma ToInt32_holds (f : number) (z : Z) :
  holds_integer f z → Num.ToInt32 f mod 2 ^ 32 = z mod 2 ^ 32.
Proof.
  intros Hf. unfold Num.ToInt32. rewrite (truncate_holds f z Hf).
  destruct (2 ^ 31 <=? z mod 2 ^ 32).
  - replace (z mod 2 ^ 32 - 2 ^ 32) with (z mod 2 ^ 32 + (-1) * 2 ^ 32) by lia.
    rewrite Z.mod_add by lia. apply Z.mod_mod. lia.
  - apply Z.mod_mod. lia.
Qed.

(** The product of an integer with the multiplier of [hash], as [^] reads
    it. *)
Lemma product_residue (a : Z) :
  Z.abs (a * 16777619) < 2 ^ 53 →
  Num.ToInt32 (Num.mul (Num.of_Z a) (Num.of_Z 16777619)) mod 2 ^ 32 =
  (a * 16777619) mod 2 ^ 32.
Proof.
  intros Ha. apply ToInt32_holds.
  apply mul_holds; [apply of_Z_holds; lia|apply of_Z_holds; lia|exact Ha].
Qed.

Lemma hash_cell_xor (a b : Z) :
  Z.abs (a * 16777619) < 2 ^ 53 → Z.abs (b * 16777619) < 2 ^ 53 →
  DSH.hash_cell (a, b) =
  Z.lxor ((a * 16777619) mod 2 ^ 32) ((b * 16777619) mod 2 ^ 32).
Proof.
  intros Ha Hb. unfold DSH.hash_cell, DSH.hash, Num.ToUint32_of_int. cbn [fst snd].
  rewrite lxor_mod_2_32, !product_residue by assumption. reflexivity.
Qed.

Lemma lxor_cancel_r (X X' Y : Z) : Z.lxor X Y = Z.lxor X' Y → X = X'.
Proof.
  intros H. apply (f_equal (λ z, Z.lxor z Y)) in H.
  rewrite !Z.lxor_assoc, Z.lxor_nilpotent, !Z.lxor_0_r in H. exact H.
Qed.

Lemma prime_residue_inj (a a' : Z) :
  Z.abs (a - a') < 2 ^ 32 →
  (a * 16777619) mod 2 ^ 32 = (a' * 16777619) mod 2 ^ 32 → a = a'.
Proof.
  intros Hd Hmod.
  assert ((2 ^ 32 | 16777619 * (a - a'))) as Hdiv.
  { pose proof (Z.div_mod (a * 16777619) (2 ^ 32) ltac:(lia)) as H1.
    pose proof (Z.div_mod (a' * 16777619) (2 ^ 32) ltac:(lia)) as H2.
    exists ((a * 16777619) / 2 ^ 32 - (a' * 16777619) / 2 ^ 32). lia. }
  apply Z.gauss in Hdiv; [|reflexivity].
  destruct Hdiv as [c Hc]. assert (c = 0) by lia. lia.
Qed.

(** X18: The key of a cell with integer coordinates, while the two products are
    exact in binary64: the exclusive or of the residues of [x * 16777619] and
    [y * 16777619] modulo [2^32]. *)
Theorem hash_of_integer_cell (a b : Z) :
  Z.abs (a * 16777619) < 2 ^ 53 → Z.abs (b * 16777619) < 2 ^ 53 →
  DSH.hash (Num.of_Z a) (Num.of_Z b) =
  Z.lxor ((a * 16777619) mod 2 ^ 32) ((b * 16777619) mod 2 ^ 32).
Proof.
  intros Ha Hb. unfold DSH.hash, Num.ToUint32_of_int.
  rewrite lxor_mod_2_32.
  rewrite (product_residue a Ha), (product_residue b Hb). reflexivity.
Qed.

(** X19: Two cells of one row, or of one column, never share a key (while the
    products are exact): the keys that collide belong to cells that differ in
    both coordinates. *)
Theorem no_collision_in_a_row (a a' b : Z) :
  Z.abs (a * 16777619) < 2 ^ 53 → Z.abs (a' * 16777619) < 2 ^ 53 →
  Z.abs (b * 16777619) < 2 ^ 53 →
  a ≠ a' →
  DSH.hash_cell (a, b) ≠ DSH.hash_cell (a', b) ∧
  DSH.hash_cell (b, a) ≠ DSH.hash_cell (b, a').
Proof.
  intros Ha Ha' Hb Hne.
  rewrite !hash_cell_xor by assumption.
  split; intros Hcol; apply Hne; (apply prime_residue_inj; [lia|]).
  - apply lxor_cancel_r in Hcol. exact Hcol.
  - rewrite (Z.lxor_comm _ ((a * 16777619) mod 2 ^ 32)) in Hcol.
    rewrite (Z.lxor_comm _ ((a' * 16777619) mod 2 ^ 32)) in Hcol.
    apply lxor_cancel_r in Hcol. exact Hcol.
Qed.

Lemma no_collision_in_a_row_witness :
  DSH.hash_cell (-1, 0) ≠ DSH.hash_cell (0, 0) ∧
  DSH.hash_cell (0, -1) ≠ DSH.hash_cell (0, 0).
Proof. apply (no_collision_in_a_row (-1) 0 0); try reflexivity. discriminate. Defined.

Lemma hash_of_integer_cell_witness :
  DSH.hash (Num.of_Z (-1)) (Num.of_Z 1) =
  Z.lxor ((-1 * 16777619) mod 2 ^ 32) ((1 * 16777619) mod 2 ^ 32).
Proof. apply (hash_of_integer_cell (-1) 1); reflexivity. Defined.

(** ** The cells of a box with integer edges *)

Lemma half_pow2 : DSH.half = pow2 (-1).
Proof. reflexivity. Qed.

(** Halving an even integer is exact. *)
Lemma half_holds (W : Z) :
  Z.abs W < 2 ^ 52 → holds_integer (Num.mul (Num.of_Z (2 * W)) DSH.half) W.
Proof.
  intros HW. pose proof (of_Z_holds (2 * W) ltac:(lia)) as Hh. rewrite half_pow2.
  destruct (Num.of_Z (2 * W)) as [s| | |s m e]; try contradiction.
  - simpl in Hh. simpl. lia.
  - destruct Hh as (He & Hd & Hm & Hs & Hz).
    pose proof (digits2_pos_bounds m) as Hb. rewrite Hd in Hb.
    assert (0 < 2 ^ (- e)) as Hpow by (apply Z.pow_pos_nonneg; lia).
    assert (-51 ≤ e) as He'.
    { destruct (Z.le_gt_cases (-51) e) as [H|H]; [exact H|]. exfalso.
      assert (e = -52) as -> by lia. change (2 ^ (- -52)) with (2 ^ 52) in Hm.
      change (2 ^ 53) with (2 * 2 ^ 52) in Hb. nia. }
    change (pow2 (-1)) with (pow2 (Z.opp 1)). rewrite (mul_pow2 s m e 1) by lia.
    split; [lia|]. split; [exact Hd|]. split; [|split; [|lia]].
    + rewrite Hm. replace (- (e - 1)) with (Z.succ (- e)) by lia.
      rewrite Z.pow_succ_r by lia. lia.
    + rewrite Hs. destruct (Z.ltb_spec (2 * W) 0), (Z.ltb_spec W 0); try reflexivity; lia.
Qed.

Lemma holds_regular (k : Z) (f : number) (z : Z) :
  holds_integer f z → Z.abs z < 2 ^ 52 → k ≤ 1022 → regular k f = true.
Proof.
  destruct f as [s| | |s m e]; try contradiction; [reflexivity|].
  intros (He & Hd & Hm & _ & Hz) Hz52 Hk. unfold regular.
  pose proof (digits2_pos_bounds m) as Hb. rewrite Hd in Hb.
  change (2 ^ (53 - 1)) with (2 ^ 52) in Hb.
  assert (e ≤ -1) as He'.
  { destruct (Z.le_gt_cases e (-1)) as [H|H]; [exact H|]. exfalso.
    assert (e = 0) as -> by lia. simpl in Hm. lia. }
  rewrite (proj2 (Z.eqb_eq _ _) Hd).
  rewrite (proj2 (Z.leb_le (k - 1074) e)) by lia.
  rewrite (proj2 (Z.leb_le e (-1))) by lia. reflexivity.
Qed.

(** The cell of an integer coordinate is its quotient by the cell size,
    rounded down. *)
Lemma cell_coord_holds (k : Z) (f : number) (z : Z) :
  0 ≤ k → holds_integer f z → cell_coord k f = z / 2 ^ k.
Proof.
  intros Hk. destruct f as [s| | |s m e]; try contradiction.
  - intros ->. reflexivity.
  - intros (He & _ & Hm & Hs & Hz). unfold cell_coord.
    assert (0 < 2 ^ (- e)) as Hpe by (apply Z.pow_pos_nonneg; lia).
    assert (0 < 2 ^ k) as Hpk by (apply Z.pow_pos_nonneg; lia).
    replace (k - e) with (k + - e) by lia. rewrite Z.pow_add_r by lia.
    subst s. destruct (Z.ltb_spec z 0) as [Hneg|Hpos].
    + rewrite ceil_div by lia.
      rewrite Hm, Z.mul_mod_distr_r, Z.div_mul_cancel_r by lia.
      replace (z / 2 ^ k) with (- Z.abs z / 2 ^ k) by (f_equal; lia).
      destruct (Z.eqb_spec (Z.abs z mod 2 ^ k * 2 ^ (- e)) 0) as [H0|H0].
      * rewrite Z.div_opp_l_z by nia. reflexivity.
      * rewrite Z.div_opp_l_nz by nia. lia.
    + rewrite Hm, Z.div_mul_cancel_r by lia. f_equal. lia.
Qed.

Lemma elem_of_rectangle (xs ys : list Z) (c : Z * Z) :
  c ∈ (cx ← xs; cy ← ys; [(cx, cy)]) ↔ c.1 ∈ xs ∧ c.2 ∈ ys.
Proof.
  destruct c as [cx cy]. rewrite list_elem_of_bind. simpl. split.
  - intros (cx' & Hc & Hx). apply list_elem_of_bind in Hc as (cy' & Hc & Hy).
    apply list_elem_of_singleton in Hc. injection Hc as -> ->. auto.
  - intros [Hx Hy]. exists cx. split; [|exact Hx].
    apply list_elem_of_bind. exists cy. split; [apply list_elem_of_singleton; reflexivity|].
    exact Hy.
Qed.

Lemma counter_values_integers (k n : Z) (lo hi : number) (a b : Z) :
  0 ≤ k ≤ 1021 → 0 ≤ n ≤ 2 ^ 52 - 2 →
  holds_integer lo a → holds_integer hi b → Z.abs a < 2 ^ 52 → Z.abs b < 2 ^ 52 →
  DSH.counter_values
    (Num.sub (Num.floor (Num.mul lo (pow2 (- k)))) (Num.of_Z n))
    (Num.add (Num.floor (Num.mul hi (pow2 (- k)))) (Num.of_Z n)) =
  Some (seqZ (a / 2 ^ k - n) (b / 2 ^ k + n - (a / 2 ^ k - n) + 1)).
Proof.
  intros Hk Hn Hlo Hhi Ha Hb.
  pose proof (holds_regular k lo a Hlo Ha ltac:(lia)) as Hrl.
  pose proof (holds_regular k hi b Hhi Hb ltac:(lia)) as Hrh.
  pose proof (cell_coord_bound k lo ltac:(lia) Hrl) as Hbl.
  pose proof (cell_coord_bound k hi ltac:(lia) Hrh) as Hbh.
  pose proof (floor_mul_pow2_holds k lo ltac:(lia) Hrl) as Hfl.
  pose proof (floor_mul_pow2_holds k hi ltac:(lia) Hrh) as Hfh.
  rewrite (cell_coord_holds k lo a) in Hbl, Hfl by (lia || assumption).
  rewrite (cell_coord_holds k hi b) in Hbh, Hfh by (lia || assumption).
  assert (holds_integer (Num.of_Z n) n) as Hov by (apply of_Z_holds; lia).
  apply counter_values_is_the_loop.
  - apply sub_holds; [exact Hfl|exact Hov|lia].
  - apply add_holds; [exact Hfh|exact Hov|lia].
  - lia.
Qed.

Lemma covering_cells_integers (k n X Y W H : Z) (tbl : gmap key (gset objref))
    (o : JSObject) :
  0 ≤ k ≤ 1021 → 0 ≤ n ≤ 2 ^ 52 - 2 →
  x o = Num.of_Z X → y o = Num.of_Z Y →
  width o = Num.of_Z (2 * W) → height o = Num.of_Z (2 * H) →
  Z.abs X + Z.abs W < 2 ^ 52 → Z.abs Y + Z.abs H < 2 ^ 52 →
  ∃ cs, DSH.covering_cells (pow2_index k n tbl) o = Some cs ∧
        ∀ c, c ∈ cs ↔
             ((X - W) / 2 ^ k - n ≤ c.1 ≤ (X + W) / 2 ^ k + n) ∧
             ((Y - H) / 2 ^ k - n ≤ c.2 ≤ (Y + H) / 2 ^ k + n).
Proof.
  intros Hk Hn Hx Hy Hw Hh HX HY.
  assert (holds_integer (Num.of_Z X) X) as HhX by (apply of_Z_holds; lia).
  assert (holds_integer (Num.of_Z Y) Y) as HhY by (apply of_Z_holds; lia).
  pose proof (half_holds W ltac:(lia)) as HhW.
  pose proof (half_holds H ltac:(lia)) as HhH.
  unfold DSH.covering_cells, DSH.minX, DSH.maxX, DSH.minY, DSH.maxY, pow2_index.
  cbn [priv_cellSize overflow]. rewrite Hx, Hy, Hw, Hh.
  rewrite (counter_values_integers k n _ _ (X - W) (X + W) Hk Hn);
    [|apply sub_holds; [assumption|assumption|lia]
     |apply add_holds; [assumption|assumption|lia]|lia|lia].
  rewrite (counter_values_integers k n _ _ (Y - H) (Y + H) Hk Hn);
    [|apply sub_holds; [assumption|assumption|lia]
     |apply add_holds; [assumption|assumption|lia]|lia|lia].
  set (xs := seqZ ((X - W) / 2 ^ k - n) _). set (ys := seqZ ((Y - H) / 2 ^ k - n) _).
  assert (∀ c : Z * Z, c ∈ (cx ← xs; cy ← ys; [(cx, cy)]) ↔
            ((X - W) / 2 ^ k - n ≤ c.1 ≤ (X + W) / 2 ^ k + n) ∧
            ((Y - H) / 2 ^ k - n ≤ c.2 ≤ (Y + H) / 2 ^ k + n)) as Hin.
  { intros c. rewrite elem_of_rectangle. unfold xs, ys. rewrite !elem_of_seqZ. lia. }
  destruct xs as [|cx xs'] eqn:Hxs.
  - exists []. split; [reflexivity|]. intros c. rewrite <- Hin.
    rewrite elem_of_rectangle. split; [intros Hc|intros [Hc _]]; apply elem_of_nil in Hc;
      contradiction.
  - eexists. split; [reflexivity|]. exact Hin.
Qed.

Lemma set_overflow_pow2 (k n : Z) (w : world) :
  0 ≤ k ≤ 1021 →
  DSH.constructor (VNumber (Num.dyadic 1 k)) ∅ = Return tt w →
  this (DSH.set_overflow (Num.of_Z n) w) = pow2_index k n ∅.
Proof.
  intros Hk Hnew. unfold DSH.set_overflow, DSH.with_overflow; cbn [this].
  rewrite (constructor_pow2 k w Hk Hnew). reflexivity.
Qed.

(** X20: For a cell size [2^k] and an integer overflow [n], an object with an
    integer centre [(X, Y)], width [2W] and height [2H] covers exactly the
    cells [(cx, cy)] with [floor((X-W)/2^k) - n <= cx <= floor((X+W)/2^k) + n]
    and [floor((Y-H)/2^k) - n <= cy <= floor((Y+H)/2^k) + n], and its
    covering set is the set of their keys. *)
Theorem cells_of_integer_box (k n X Y W H : Z) (o : JSObject) (w : world) :
  0 ≤ k ≤ 1021 → 0 ≤ n ≤ 2 ^ 52 - 2 →
  DSH.constructor (VNumber (Num.dyadic 1 k)) ∅ = Return tt w →
  x o = Num.of_Z X → y o = Num.of_Z Y →
  width o = Num.of_Z (2 * W) → height o = Num.of_Z (2 * H) →
  Z.abs X + Z.abs W < 2 ^ 52 → Z.abs Y + Z.abs H < 2 ^ 52 →
  ∃ cs, DSH.covering_cells (this (DSH.set_overflow (Num.of_Z n) w)) o = Some cs ∧
        DSH.getHashFromObject (this (DSH.set_overflow (Num.of_Z n) w)) o =
          Some (list_to_set (DSH.hash_cell <$> cs)) ∧
        ∀ c, c ∈ cs ↔
             ((X - W) / 2 ^ k - n ≤ c.1 ≤ (X + W) / 2 ^ k + n) ∧
             ((Y - H) / 2 ^ k - n ≤ c.2 ≤ (Y + H) / 2 ^ k + n).
Proof.
  intros Hk Hn Hnew Hx Hy Hw Hh HX HY.
  rewrite (set_overflow_pow2 k n w Hk Hnew).
  destruct (covering_cells_integers k n X Y W H ∅ o Hk Hn Hx Hy Hw Hh HX HY)
    as (cs & Hcs & Hin).
  exists cs. split; [exact Hcs|]. split; [|exact Hin].
  unfold DSH.getHashFromObject. rewrite Hcs. reflexivity.
Qed.

Lemma cells_of_integer_box_witness :
  ∃ cs, DSH.covering_cells (this (DSH.set_overflow (Num.of_Z 0) empty_world)) box_A = Some cs ∧
        DSH.getHashFromObject (this (DSH.set_overflow (Num.of_Z 0) empty_world)) box_A =
          Some (list_to_set (DSH.hash_cell <$> cs)) ∧
        ∀ c, c ∈ cs ↔
             ((10 - 16) / 2 ^ 5 - 0 ≤ c.1 ≤ (10 + 16) / 2 ^ 5 + 0) ∧
             ((20 - 16) / 2 ^ 5 - 0 ≤ c.2 ≤ (20 + 16) / 2 ^ 5 + 0).
Proof.
  apply (cells_of_integer_box 5 0 10 20 16 16 box_A empty_world);
    try reflexivity; lia.
Defined.

(** X21: A larger overflow only adds keys: for such an object and cell size, the
    covering set with overflow [n] is part of the covering set with any
    overflow [n' >= n]. *)
Theorem overflow_widens (k n n' X Y W H : Z) (o : JSObject) (w : world) :
  0 ≤ k ≤ 1021 → 0 ≤ n ≤ n' → n' ≤ 2 ^ 52 - 2 →
  DSH.constructor (VNumber (Num.dyadic 1 k)) ∅ = Return tt w →
  x o = Num.of_Z X → y o = Num.of_Z Y →
  width o = Num.of_Z (2 * W) → height o = Num.of_Z (2 * H) →
  Z.abs X + Z.abs W < 2 ^ 52 → Z.abs Y + Z.abs H < 2 ^ 52 →
  ∃ K K', DSH.getHashFromObject (this (DSH.set_overflow (Num.of_Z n) w)) o = Some K ∧
          DSH.getHashFromObject (this (DSH.set_overflow (Num.of_Z n') w)) o = Some K' ∧
          K ⊆ K'.
Proof.
  intros Hk Hn Hn' Hnew Hx Hy Hw Hh HX HY.
  rewrite (set_overflow_pow2 k n w Hk Hnew), (set_overflow_pow2 k n' w Hk Hnew).
  destruct (covering_cells_integers k n X Y W H ∅ o Hk ltac:(lia) Hx Hy Hw Hh HX HY)
    as (cs & Hcs & Hin).
  destruct (covering_cells_integers k n' X Y W H ∅ o Hk ltac:(lia) Hx Hy Hw Hh HX HY)
    as (cs' & Hcs' & Hin').
  destruct (keys_follow_cells _ _ o cs' cs Hcs' Hcs) as (K' & K & HK' & HK & Hsub & _).
  - intros c Hc. apply Hin'. apply Hin in Hc. lia.
  - exists K, K'. auto.
Qed.

Lemma overflow_widens_witness :
  ∃ K K',
    DSH.getHashFromObject (this (DSH.set_overflow (Num.of_Z 0) empty_world)) box_A = Some K ∧
    DSH.getHashFromObject (this (DSH.set_overflow (Num.of_Z 1) empty_world)) box_A = Some K' ∧
    K ⊆ K'.
Proof.
  apply (overflow_widens 5 0 1 10 20 16 16 box_A empty_world);
    try reflexivity; lia.
Defined.

(** ** The loop of [getHashFromObject] *)

(** X22: Between two integers [a] and [b] held exactly, the loop [for (c = lo; c
    <= hi; c++)] ends after [b - a + 2] tests (one test when [b < a]) and
    its counter takes the values [a, a + 1, ..., b], each held exactly. *)
Theorem loop_visits_the_integers (lo hi : number) (a b : Z) :
  holds_integer lo a → holds_integer hi b → Z.abs b < 2 ^ 53 - 1 →
  ∃ cs, DSH.counter_steps (S (Z.to_nat (b - a + 1))) lo hi = Some cs ∧
        Forall2 holds_integer cs (seqZ a (b - a + 1)) ∧
        DSH.counter_values lo hi = Some (seqZ a (b - a + 1)).
Proof.
  intros Hlo Hhi Hb.
  destruct (counter_values_is_the_loop lo hi a b Hlo Hhi Hb) as (Hv & cs & Hcs & Hall).
  exists cs. auto.
Qed.

Lemma loop_visits_the_integers_witness :
  ∃ cs, DSH.counter_steps (S (Z.to_nat (1 - -1 + 1))) (Num.of_Z (-1)) (Num.of_Z 1) = Some cs ∧
        Forall2 holds_integer cs (seqZ (-1) (1 - -1 + 1)) ∧
        DSH.counter_values (Num.of_Z (-1)) (Num.of_Z 1) = Some (seqZ (-1) (1 - -1 + 1)).
Proof.
  apply (loop_visits_the_integers (Num.of_Z (-1)) (Num.of_Z 1) (-1) 1).
  - vm_compute. repeat split; discriminate.
  - vm_compute. repeat split; discriminate.
  - reflexivity.
Defined.

(** ** The constructor *)

(** X23: [new DynamicSpatialHash(v)] returns exactly when [v] is [undefined]
    (which stands for 32) or a number that is not [<= 0], and then the index
    has no bucket, overflow 0 and the reciprocal of the cell size stored;
    a number [<= 0] makes it throw a RangeError, and any other value, [null]
    among them, a TypeError. *)
Theorem constructor_returns_iff (v : value) (h : gmap objref JSObject) :
  (∀ w, DSH.constructor v h = Return tt w ↔
        ∃ n, (v = VUndefined ∧ n = Num.of_Z 32 ∨ v = VNumber n) ∧
             Num.leb n (Num.of_Z 0) = false ∧
             w = mkWorld (mkIndex (Num.div (Num.of_Z 1) n) ∅ (Num.of_Z 0)) h) ∧
  (returned (DSH.constructor v h) = None →
   (∃ n w', v = VNumber n ∧ Num.leb n (Num.of_Z 0) = true ∧
            DSH.constructor v h = Throw RangeError w' ∧ heap w' = h) ∨
   (∃ w', typeof_number v = false ∧ v ≠ VUndefined ∧
          DSH.constructor v h = Throw TypeError w' ∧ heap w' = h)).
Proof.
  split.
  - intros w. split.
    + unfold DSH.constructor, DSH.set_cellSize.
      destruct v as [| |b|n|s|r]; try discriminate.
      * change (Num.leb (Num.of_Z 32) (Num.of_Z 0)) with false. cbv iota.
        intros [= <-]. exists (Num.of_Z 32). split; [left; split; reflexivity|].
        split; reflexivity.
      * destruct (Num.leb n (Num.of_Z 0)) eqn:Hle; [discriminate|].
        intros [= <-]. exists n. split; [right; reflexivity|]. split; [exact Hle|reflexivity].
    + intros (n & [[-> ->] | ->] & Hle & ->).
      * reflexivity.
      * unfold DSH.constructor, DSH.set_cellSize. rewrite Hle. reflexivity.
  - unfold DSH.constructor, DSH.set_cellSize.
    destruct v as [| |b|n|s|r];
      try (intros _; right; eexists; split; [reflexivity|]; split; [discriminate|];
           split; reflexivity).
    + change (Num.leb (Num.of_Z 32) (Num.of_Z 0)) with false. cbv iota.
      intros Hr. discriminate Hr.
    + destruct (Num.leb n (Num.of_Z 0)) eqn:Hle; [|intros Hr; discriminate Hr].
      intros _. left. exists n. eexists. split; [reflexivity|]. split; [exact Hle|].
      split; reflexivity.
Qed.
